(** * LUDO: board geometry, figures, players and captures

    A shallow embedding of [main.py]: the cell classification
    [Board.box_at], the track walk [Board.next_position], the home-lane
    entry [Board.home_position], [Figure.next_position], the capture
    operation [Board.move_figure], [Player.has_finished] and the board
    constructor, followed by the properties the specification states
    about them.

    Python integers are unbounded, so they are [Z]; [//] and [%] with the
    positive divisor 2 are [Z.div] and [Z.modulo].  Objects that are
    mutated and shared by reference (figures, players) live in stores and
    are named by their index; lists hold references. *)

From stdpp Require Import base decidable option list list_numbers strings.
From Stdlib Require Import ZArith Lia.

Local Open Scope Z_scope.

(** ** Python primitives *)

Inductive exn := AssertionError | IndexError | ValueError | AttributeError.

Inductive result (A : Type) :=
  | Ok (a : A)
  | Raise (e : exn).
Arguments Ok {A} a.
Arguments Raise {A} e.

#[global] Instance exn_eq_dec : EqDecision exn.
Proof. solve_decision. Defined.

(** [l[i]]: a negative index counts from the end, anything outside
    [-len, len) raises IndexError. *)
Definition py_index {A} (l : list A) (i : Z) : result A :=
  let len := Z.of_nat (length l) in
  if decide (0 ≤ i < len) then
    match l !! Z.to_nat i with Some a => Ok a | None => Raise IndexError end
  else if decide (- len ≤ i < 0) then
    match l !! Z.to_nat (len + i) with Some a => Ok a | None => Raise IndexError end
  else Raise IndexError.

(** [range(n)] *)
Definition range (n : Z) : list Z := seqZ 0 n.

(** [x in (a, b)] on a tuple of integers *)
Definition py_in (x : Z) (t : list Z) : bool := bool_decide (x ∈ t).

(** [l.remove(x)]: drops the first element equal to [x]; ValueError when
    there is none. *)
Fixpoint list_remove (x : nat) (l : list nat) : result (list nat) :=
  match l with
  | [] => Raise ValueError
  | y :: l' =>
      if decide (y = x) then Ok l'
      else match list_remove x l' with
           | Ok r => Ok (y :: r)
           | Raise e => Raise e
           end
  end.

(** ** Data model *)

Inductive BoardBox := EMPTY | WALL | PATH | HOME.

#[global] Instance BoardBox_eq_dec : EqDecision BoardBox.
Proof. solve_decision. Defined.

Definition coord : Type := Z * Z.

Record Figure := mkFigure {
  f_start_position : coord;
  f_position : coord;
  f_representation : string
}.

(** [p_figures] holds references into the figure store. *)
Record Player := mkPlayer {
  p_representation : string;
  p_home_position : coord;
  p_figures : list nat
}.

(** [b_players] holds references into the player store. *)
Record Board := mkBoard {
  b_n : Z;
  b_board : list (list BoardBox);
  b_players : list nat;
  b_starts : list coord
}.

#[global] Instance Figure_inhabited : Inhabited Figure :=
  populate (mkFigure (0, 0) (0, 0) "").
#[global] Instance Player_inhabited : Inhabited Player :=
  populate (mkPlayer "" (0, 0) []).

(** ** Board: the geometry (lines 93-95 and 120-184 of main.py) *)

Definition Board_max_figures (self : Board) : Z := (b_n self - 3) / 2.

Definition Board_box_at (self : Board) (x y : Z) : BoardBox :=
  let m := b_n self / 2 in
  if bool_decide (x = m) || bool_decide (y = m) then
    if bool_decide (x = y) then WALL
    else if py_in x [0; b_n self - 1] || py_in y [0; b_n self - 1] then PATH
    else HOME
  else if (bool_decide (x < m - 1) || bool_decide (x > m + 1))
          && (bool_decide (y < m - 1) || bool_decide (y > m + 1)) then EMPTY
  else PATH.

(** [self.board = [[self.box_at(x, y) for x in range(n)] for y in range(n)]] *)
Definition _build_board (self : Board) : Board :=
  mkBoard (b_n self)
    ((λ y, (λ x, Board_box_at self x y) <$> range (b_n self)) <$> range (b_n self))
    (b_players self) (b_starts self).

(** [self.board[i][j]] *)
Definition board_get (self : Board) (i j : Z) : result BoardBox :=
  match py_index (b_board self) i with
  | Ok row => py_index row j
  | Raise e => Raise e
  end.

(** The final loop of [Board.next_position]: the first candidate whose
    grid cell is PATH. *)
Fixpoint first_path (self : Board) (posible_moves : list coord)
  : result (option coord) :=
  match posible_moves with
  | [] => Ok None
  | (px, py) :: rest =>
      match board_get self py px with
      | Raise e => Raise e
      | Ok box => if decide (box = PATH) then Ok (Some (px, py))
                  else first_path self rest
      end
  end.

(** The list [posible_moves] as lines 136-146 fill it: first the vertical
    neighbour, then the horizontal one. *)
Definition posible_moves (self : Board) (x y : Z) : list coord :=
  let m := b_n self / 2 in
  (if bool_decide (x < m) then
     (if bool_decide (y > 0) then [(x, y - 1)] else [])
   else if bool_decide (y < b_n self - 1) then [(x, y + 1)] else [])
  ++
  (if bool_decide (y < m) then
     (if bool_decide (x < b_n self - 1) then [(x + 1, y)] else [])
   else if bool_decide (x > 0) then [(x - 1, y)] else []).

(** Lines 120-152.  The two blocks [if x == m: ...] and [if y == m: ...]
    hold two guarded returns each; they are written here as four
    guarded returns in the same order.  The fourth compares [y], as line
    131 does.  [self.board[x][y]] on line 133 and [self.board[py][px]] on
    line 149 index the grid in opposite orders, as in the source. *)
Definition Board_next_position (self : Board) (x y : Z) : result (option coord) :=
  let m := b_n self / 2 in
  if bool_decide (x = m) && (bool_decide (y < m - 1) && bool_decide (y ≠ 0))
  then Ok (Some (x, y + 1))
  else if bool_decide (x = m)
          && (bool_decide (y > m + 1) && bool_decide (y ≠ b_n self - 1))
  then Ok (Some (x, y - 1))
  else if bool_decide (y = m) && (bool_decide (x < m - 1) && bool_decide (x ≠ 0))
  then Ok (Some (x + 1, y))
  else if bool_decide (y = m)
          && (bool_decide (y > m + 1) && bool_decide (y ≠ b_n self - 1))
  then Ok (Some (x - 1, y))
  else
    match board_get self x y with
    | Raise e => Raise e
    | Ok box =>
        if decide (box = HOME) then Ok None
        else first_path self (posible_moves self x y)
    end.

Definition Board_home_position (self : Board) (x y : Z) : option coord :=
  let m := b_n self / 2 in
  if bool_decide (x = 0) then Some (1, m)
  else if bool_decide (x = b_n self - 1) then Some (b_n self - 2, m)
  else if bool_decide (y = 0) then Some (m, 1)
  else if bool_decide (y = b_n self - 1) then Some (m, b_n self - 2)
  else None.

(** [Board.__init__]: the assertion, then the attributes in the order the
    constructor assigns them. *)
Definition Board_init (n : Z) : result Board :=
  if decide (n `mod` 2 ≠ 0) then
    let self := _build_board (mkBoard n [] [] []) in
    Ok (mkBoard (b_n self) (b_board self) []
          [(n / 2 + 1, 0); (n / 2 - 1, n - 1)])
  else Raise AssertionError.

(** ** The object store and a small state-and-exception monad

    A computation takes the world, returns a value or a raised exception,
    and the world it leaves behind (a raise keeps the mutations made
    before it, as in Python). *)

Record World := mkWorld {
  w_figures : list Figure;
  w_players : list Player;
  w_board : Board
}.

Definition M (A : Type) : Type := World → result A * World.

Definition ret {A} (a : A) : M A := λ w, (Ok a, w).
Definition raise {A} (e : exn) : M A := λ w, (Raise e, w).
Definition bind {A B} (m : M A) (k : A → M B) : M B :=
  λ w, match m w with
       | (Ok a, w') => k a w'
       | (Raise e, w') => (Raise e, w')
       end.
Definition gets {A} (f : World → A) : M A := λ w, (Ok (f w), w).
Definition modify (f : World → World) : M unit := λ w, (Ok (), f w).
Definition lift {A} (r : result A) : M A := λ w, (r, w).

Notation "'let*' x ':=' m 'in' k" := (bind m (λ x, k))
  (at level 10, x pattern, m at level 100, k at level 200, only parsing).

(** Dereferencing: a reference held by the program is always allocated,
    so the default of the total lookup is never observed. *)
Definition get_figure (f : nat) : M Figure := gets (λ w, w_figures w !!! f).
Definition get_player (p : nat) : M Player := gets (λ w, w_players w !!! p).
Definition get_board : M Board := gets w_board.

Definition set_figure (f : nat) (v : Figure) : M unit :=
  modify (λ w, mkWorld (<[f := v]> (w_figures w)) (w_players w) (w_board w)).
Definition set_player (p : nat) (v : Player) : M unit :=
  modify (λ w, mkWorld (w_figures w) (<[p := v]> (w_players w)) (w_board w)).
Definition set_board (b : Board) : M unit :=
  modify (λ w, mkWorld (w_figures w) (w_players w) b).
(** A new object gets the next free reference. *)
Definition new_figure (v : Figure) : M nat :=
  λ w, (Ok (length (w_figures w)),
        mkWorld (w_figures w ++ [v]) (w_players w) (w_board w)).
Definition new_player (v : Player) : M nat :=
  λ w, (Ok (length (w_players w)),
        mkWorld (w_figures w) (w_players w ++ [v]) (w_board w)).

(** ** Figure (lines 14-43) *)

Definition Figure_move_to (self : nat) (position : coord) : M unit :=
  let* fig := get_figure self in
  set_figure self (mkFigure (f_start_position fig) position (f_representation fig)).

Definition Figure_is_home (self : nat) : M bool :=
  let* fig := get_figure self in
  let* board := get_board in
  ret (bool_decide (Board_box_at board (f_position fig).1 (f_position fig).2 = HOME)).

(** ** Player (lines 46-78) *)

Definition Player_add_figure (self : nat) : M unit :=
  let* p := get_player self in
  let* fig := new_figure (mkFigure (p_home_position p) (p_home_position p)
                            (p_representation p)) in
  let* p := get_player self in
  set_player self (mkPlayer (p_representation p) (p_home_position p)
                     (p_figures p ++ [fig])).

Fixpoint Player_figure_at_loop (figures : list nat) (x y : Z) : M (option nat) :=
  match figures with
  | [] => ret None
  | figure :: rest =>
      let* fig := get_figure figure in
      if decide (f_position fig = (x, y)) then ret (Some figure)
      else Player_figure_at_loop rest x y
  end.

Definition Player_figure_at (self : nat) (x y : Z) : M (option nat) :=
  let* p := get_player self in
  Player_figure_at_loop (p_figures p) x y.

Fixpoint Player_figures_finished_loop (figures : list nat) : M bool :=
  match figures with
  | [] => ret true
  | figure :: rest =>
      let* home := Figure_is_home figure in
      if negb home then ret false else Player_figures_finished_loop rest
  end.

Definition Player_figures_finished (self : nat) : M bool :=
  let* p := get_player self in
  Player_figures_finished_loop (p_figures p).

Definition Player_has_finished (self : nat) : M bool :=
  let* p := get_player self in
  let* board := get_board in
  if bool_decide (Z.of_nat (length (p_figures p)) = Board_max_figures board)
  then Player_figures_finished self
  else ret false.

Definition Player_delete_figure (self : nat) (figure : nat) : M unit :=
  let* p := get_player self in
  let* figures := lift (list_remove figure (p_figures p)) in
  set_player self (mkPlayer (p_representation p) (p_home_position p) figures).

(** ** Board: players and captures (lines 97-118) *)

Fixpoint Board_figure_at_loop (players : list nat) (x y : Z)
  : M (option nat * option nat) :=
  match players with
  | [] => ret (None, None)
  | player :: rest =>
      let* figure := Player_figure_at player x y in
      match figure with
      | Some f => ret (Some f, Some player)
      | None => Board_figure_at_loop rest x y
      end
  end.

Definition Board_figure_at (x y : Z) : M (option nat * option nat) :=
  let* board := get_board in
  Board_figure_at_loop (b_players board) x y.

Definition Board_move_figure (figure : nat) (x y : Z) : M (option nat) :=
  let* found := Board_figure_at x y in
  let* _ := match found.1 with
            | Some del_figure =>
                match found.2 with
                | Some del_player => Player_delete_figure del_player del_figure
                | None => raise AttributeError
                end
            | None => ret ()
            end in
  let* _ := Figure_move_to figure (x, y) in
  ret found.1.

(** [chr(len(self.players) + ord('A'))] is the one-character string of
    that code; [ascii_of_nat] agrees with it below code 256. *)
Definition Board_add_player (representation : option string) : M nat :=
  let* board := get_board in
  let representation :=
    match representation with
    | Some r => r
    | None => String (Ascii.ascii_of_nat (length (b_players board) + 65)) EmptyString
    end in
  let* home_pos := lift (py_index (b_starts board)
                           (Z.of_nat (length (b_players board)))) in
  let* player := new_player (mkPlayer representation home_pos []) in
  let* _ := Player_add_figure player in
  let* board := get_board in
  let* _ := set_board (mkBoard (b_n board) (b_board board)
                         (b_players board ++ [player]) (b_starts board)) in
  ret player.

(** ** Figure.next_position (lines 24-36) *)

(** One turn of the [for] loop: the advance, then the redirection at the
    figure's own start position. *)
Definition Figure_next_position_body (self : nat) (position : coord)
  : M (option coord) :=
  let* board := get_board in
  let* position := lift (Board_next_position board position.1 position.2) in
  let* fig := get_figure self in
  if decide (position = Some (f_start_position fig)) then
    ret (Board_home_position board (f_start_position fig).1 (f_start_position fig).2)
  else ret position.

Fixpoint Figure_next_position_loop (self : nat) (moves : nat) (position : coord)
  : M (option coord) :=
  match moves with
  | O => ret (Some position)
  | S moves' =>
      let* position := Figure_next_position_body self position in
      match position with
      | None => ret None
      | Some position => Figure_next_position_loop self moves' position
      end
  end.

Definition Figure_next_position (self : nat) (moves : Z) : M (option coord) :=
  let* fig := get_figure self in
  let* position := Figure_next_position_loop self (Z.to_nat moves) (f_position fig) in
  match position with
  | None => ret None
  | Some position =>
      let* found := Board_figure_at position.1 position.2 in
      let* board := get_board in
      if bool_decide (is_Some found.1)
         && bool_decide (Board_box_at board position.1 position.2 = HOME)
      then ret None
      else ret (Some position)
  end.

(** The value and the final world of a computation. *)
Definition eval {A} (m : M A) (w : World) : result A := (m w).1.
Definition exec {A} (m : M A) (w : World) : World := (m w).2.

(** ** Notions of the specification *)

(** The classification rule as the specification words it, with
    [m = N div 2]. *)
Definition on_axis (N x y : Z) : Prop := x = N / 2 ∨ y = N / 2.
Definition touches_edge (N x y : Z) : Prop :=
  (x = 0 ∨ x = N - 1) ∨ (y = 0 ∨ y = N - 1).
Definition outside_band (N v : Z) : Prop := ¬ (N / 2 - 1 ≤ v ≤ N / 2 + 1).

Definition classify (N x y : Z) : BoardBox :=
  if decide (on_axis N x y) then
    if decide (x = y) then WALL
    else if decide (touches_edge N x y) then PATH
    else HOME
  else if decide (outside_band N x ∧ outside_band N y) then EMPTY
  else PATH.

(** A board as the constructor leaves it: the grid is the one
    [_build_board] computes for its size, and the two entry coordinates
    are the constructor's.  No method assigns [n], [board] or [starts]
    afterwards. *)
Definition Board_built (b : Board) : Prop :=
  b_board b = b_board (_build_board b)
  ∧ b_starts b = [(b_n b / 2 + 1, 0); (b_n b / 2 - 1, b_n b - 1)].

Definition in_board (b : Board) (p : coord) : Prop :=
  (0 ≤ p.1 ≤ b_n b - 1) ∧ (0 ≤ p.2 ≤ b_n b - 1).

(** The length of the circuit, a function of the board size alone. *)
Definition perimeter_length (n : Z) : Z := 4 * (n - 1).

(** [k] successive calls of [Board.next_position], each on the result of
    the one before; a None or an exception on the way ends the walk. *)
Fixpoint advance (b : Board) (k : nat) (p : coord) : result (option coord) :=
  match k with
  | O => Ok (Some p)
  | S k' =>
      match Board_next_position b p.1 p.2 with
      | Ok (Some q) => advance b k' q
      | other => other
      end
  end.

(** The circuit written out: the [k]-th cell after the first entry
    coordinate [(m+1, 0)] on a board with centre index [m], for
    [0 <= k <= 8m].  Twelve straight runs, clockwise. *)
Definition track (m k : Z) : coord :=
  if bool_decide (k ≤ m - 1) then (m + 1, k)
  else if bool_decide (k ≤ 2 * m - 2) then (k + 2, m - 1)
  else if bool_decide (k ≤ 2 * m) then (2 * m, k - m + 1)
  else if bool_decide (k ≤ 3 * m - 1) then (4 * m - k, m + 1)
  else if bool_decide (k ≤ 4 * m - 2) then (m + 1, k - 2 * m + 2)
  else if bool_decide (k ≤ 4 * m) then (5 * m - 1 - k, 2 * m)
  else if bool_decide (k ≤ 5 * m - 1) then (m - 1, 6 * m - k)
  else if bool_decide (k ≤ 6 * m - 2) then (6 * m - 2 - k, m + 1)
  else if bool_decide (k ≤ 6 * m) then (0, 7 * m - 1 - k)
  else if bool_decide (k ≤ 7 * m - 1) then (k - 6 * m, m - 1)
  else if bool_decide (k ≤ 8 * m - 2) then (m - 1, 8 * m - 2 - k)
  else (k - 7 * m + 1, 0).

(** Indices on the circuit are counted modulo its length [8m]. *)
Definition wrap (m i : Z) : Z :=
  if bool_decide (i < 8 * m) then i else i - 8 * m.

(** A computation that only reads: it leaves every world as it found it. *)
Definition reads {A} (m : M A) : Prop := ∀ w, exec m w = w.

(** The figures on the board in the order [Board.figure_at] scans them:
    player by player, each player's list in order. *)
Definition board_figures (w : World) : list nat :=
  pl ← b_players (w_board w); p_figures (w_players w !!! pl).

Definition figures_at (w : World) (p : coord) : list nat :=
  filter (λ f, f_position (w_figures w !!! f) = p) (board_figures w).

Definition occupied (w : World) (p : coord) : Prop :=
  Exists (λ f, f_position (w_figures w !!! f) = p) (board_figures w).

Definition occupied_by_other (w : World) (self : nat) (p : coord) : Prop :=
  Exists (λ f, f ≠ self ∧ f_position (w_figures w !!! f) = p) (board_figures w).

(** Every figure reference held by some player, and the invariant of the
    object graph: [Player.add_figure] is the only place a figure is
    created, and it appends the new reference to one list, so no figure
    is held twice, every reference held is allocated, and so are the
    players of the board. *)
Definition all_figures (w : World) : list nat :=
  w_players w ≫= p_figures.

Definition World_wf (w : World) : Prop :=
  NoDup (all_figures w)
  ∧ Forall (λ f, (f < length (w_figures w))%nat) (all_figures w)
  ∧ Forall (λ pl, (pl < length (w_players w))%nat) (b_players (w_board w)).

#[global] Instance World_wf_dec w : Decision (World_wf w).
Proof. unfold World_wf. apply _. Defined.

(** The worlds the program builds: a fresh board, then players joining,
    players entering a figure, and moves, in any order. *)
Inductive reachable : World → Prop :=
  | reachable_init n board :
      Board_init n = Ok board → reachable (mkWorld [] [] board)
  | reachable_add_player w representation :
      reachable w → reachable (exec (Board_add_player representation) w)
  | reachable_add_figure w player :
      reachable w → player ∈ b_players (w_board w) →
      reachable (exec (Player_add_figure player) w)
  | reachable_move_figure w figure x y :
      reachable w → (figure < length (w_figures w))%nat →
      reachable (exec (Board_move_figure figure x y) w).

#[global] Instance occupied_dec w p : Decision (occupied w p).
Proof. unfold occupied. apply _. Defined.
#[global] Instance occupied_by_other_dec w self p :
  Decision (occupied_by_other w self p).
Proof. unfold occupied_by_other. apply _. Defined.

(** [reach w self i p q]: [i] turns of the loop of [Figure.next_position]
    of figure [self], none of them yielding None, lead from [p] to [q]. *)
Inductive reach (w : World) (self : nat) : nat → coord → coord → Prop :=
  | reach_O p : reach w self O p p
  | reach_S i p q r :
      eval (Figure_next_position_body self p) w = Ok (Some q) →
      reach w self i q r →
      reach w self (S i) p r.

(** The opening of [simulacia]: [gensachovnicu(n)], then the players A
    and B join. *)
Definition gensachovnicu (n : Z) : result Board := Board_init n.

Definition simulacia_start (n : Z) : result World :=
  match gensachovnicu n with
  | Raise e => Raise e
  | Ok board =>
      match (let* _ := Board_add_player (Some "A") in
             Board_add_player (Some "B")) (mkWorld [] [] board) with
      | (Ok _, w) => Ok w
      | (Raise e, _) => Raise e
      end
  end.

(** Boards and games used as concrete instances below. *)
Definition board_of (n : Z) : Board :=
  match gensachovnicu n with Ok b => b | Raise _ => mkBoard n [] [] [] end.

Definition game_of (n : Z) : World :=
  match simulacia_start n with
  | Ok w => w
  | Raise _ => mkWorld [] [] (board_of n)
  end.

(** ** Further notions

    The players of the board hold their entry coordinate, and so do the
    figures they hold as their start position. *)
Definition homes_inv (w : World) : Prop :=
  ∀ i pl, b_players (w_board w) !! i = Some pl →
    b_starts (w_board w) !! i = Some (p_home_position (w_players w !!! pl))
    ∧ Forall (λ f, f_start_position (w_figures w !!! f)
                   = p_home_position (w_players w !!! pl))
        (p_figures (w_players w !!! pl)).

(** The [i]-th cell of the home lane behind the entry coordinate with
    circuit index [j] (0 for the first, [4m] for the second), counted
    from the edge: [(m, i)] in the top lane, [(m, 2m - i)] in the bottom
    one. *)
Definition lane_cell (m j i : Z) : coord :=
  if bool_decide (j = 0) then (m, i) else (m, 2 * m - i).

(** ** Player.active_figures (lines 68-69) and the game loop (lines 211-241) *)

(** The list comprehension of [Player.active_figures]: [or] evaluates
    [figure.next_position(board, 1)] only for a figure that is home. *)
Fixpoint Player_active_figures_loop (figures : list nat) : M (list nat) :=
  match figures with
  | [] => ret []
  | figure :: rest =>
      let* home := Figure_is_home figure in
      let* keep :=
        (if negb home then ret true
         else let* next := Figure_next_position figure 1 in
              ret (bool_decide (next ≠ None))) in
      let* others := Player_active_figures_loop rest in
      ret (if keep : bool then figure :: others else others)
  end.

Definition Player_active_figures (self : nat) : M (list nat) :=
  let* p := get_player self in
  Player_active_figures_loop (p_figures p).

(** One turn of the loop of [simulacia] for the player whose turn it is,
    with the value of [random.randint(1, 6)] as the argument [dice].  The
    calls of [print] and [board.print()] write to the console only and
    are left out; the result is the test [player.has_finished(board)]
    that ends the loop. *)
Definition simulacia_turn (player : nat) (dice : Z) : M bool :=
  let* active_figures := Player_active_figures player in
  let* _ :=
    match active_figures with
    | [] =>
        let* p := get_player player in
        let* board := get_board in
        if bool_decide (dice = 6)
           && bool_decide (Z.of_nat (length (p_figures p))
                           < Board_max_figures board)
        then Player_add_figure player
        else ret ()
    | figure :: _ =>
        let* next_move := Figure_next_position figure dice in
        match next_move with
        | Some next_move =>
            let* _ := Board_move_figure figure next_move.1 next_move.2 in
            ret ()
        | None => ret ()
        end
    end in
  Player_has_finished player.

(** [for player in itertools.cycle(board.players)]: the players take
    turns in the order of the list, one value of the die per turn, until
    a player has finished (the result) or the given values are used up. *)
Fixpoint simulacia_loop (players : list nat) (turn : nat) (dice : list Z)
  : M (option nat) :=
  match dice with
  | [] => ret None
  | d :: rest =>
      match players !! (turn `mod` length players)%nat with
      | None => ret None
      | Some player =>
          let* finished := simulacia_turn player d in
          if finished : bool then ret (Some player)
          else simulacia_loop players (S turn) rest
      end
  end.

(** [simulacia(n)] on the die values [dice]. *)
Definition simulacia (n : Z) (dice : list Z) : result (option nat) * option World :=
  match simulacia_start n with
  | Raise e => (Raise e, None)
  | Ok w =>
      let '(r, w') := simulacia_loop (b_players (w_board w)) 0 dice w in
      (r, Some w')
  end.

(** What holds of every world of a game on a board of odd size N >= 5:
    the invariant of the object graph, the board as built, players on
    their entry coordinates, no more than [max_figures] figures per
    player, and every figure of the board on a PATH or HOME cell of the
    grid. *)
Definition on_track (b : Board) (p : coord) : Prop :=
  in_board b p ∧ (Board_box_at b p.1 p.2 = PATH ∨ Board_box_at b p.1 p.2 = HOME).

Definition Game_inv (w : World) : Prop :=
  World_wf w
  ∧ Board_built (w_board w)
  ∧ Z.Odd (b_n (w_board w)) ∧ 5 ≤ b_n (w_board w)
  ∧ NoDup (b_players (w_board w))
  ∧ homes_inv w
  ∧ Forall (λ pl, Z.of_nat (length (p_figures (w_players w !!! pl)))
                  ≤ Board_max_figures (w_board w))
      (b_players (w_board w))
  ∧ Forall (λ f, on_track (w_board w) (f_position (w_figures w !!! f)))
      (board_figures w).

#[global] Instance result_eq_dec {A} `{EqDecision A} : EqDecision (result A).
Proof. solve_decision. Defined.

(** A figure the player may move this turn. *)
Definition figure_active (w : World) (f : nat) : Prop :=
  Board_box_at (w_board w) (f_position (w_figures w !!! f)).1
    (f_position (w_figures w !!! f)).2 ≠ HOME
  ∨ eval (Figure_next_position f 1) w ≠ Ok None.

#[global] Instance figure_active_dec w f : Decision (figure_active w f).
Proof. unfold figure_active. apply _. Defined.

(** * Properties *)

(** [lia] after [/] and [mod] by a constant are replaced by their
    defining equations. *)
Ltac zlia := Z.div_mod_to_equations; lia.

(** ** Cell classification *)

Lemma py_in_pair x a b :
  py_in x [a; b] = bool_decide (x = a) || bool_decide (x = b).
Proof.
  unfold py_in. rewrite <- bool_decide_or. apply bool_decide_ext.
  rewrite !elem_of_cons, elem_of_nil. tauto.
Qed.

Lemma if_bool_decide {A} (P : Prop) `{Decision P} (a b : A) :
  (if bool_decide P then a else b) = (if decide P then a else b).
Proof. unfold bool_decide, decide. by destruct H. Qed.

Ltac bd :=
  repeat (case_bool_decide; simpl; try lia); try done.

Lemma Board_box_at_classify b x y :
  Board_box_at b x y = classify (b_n b) x y.
Proof.
  unfold Board_box_at, classify. rewrite !py_in_pair.
  assert (bool_decide (x = b_n b / 2) || bool_decide (y = b_n b / 2)
          = bool_decide (on_axis (b_n b) x y)) as ->.
  { rewrite <- bool_decide_or. by apply bool_decide_ext. }
  assert (bool_decide (x = 0) || bool_decide (x = b_n b - 1)
          || (bool_decide (y = 0) || bool_decide (y = b_n b - 1))
          = bool_decide (touches_edge (b_n b) x y)) as ->.
  { rewrite <- !bool_decide_or. by apply bool_decide_ext. }
  assert ((bool_decide (x < b_n b / 2 - 1) || bool_decide (x > b_n b / 2 + 1))
          && (bool_decide (y < b_n b / 2 - 1) || bool_decide (y > b_n b / 2 + 1))
          = bool_decide (outside_band (b_n b) x ∧ outside_band (b_n b) y)) as ->.
  { rewrite <- !bool_decide_or, <- bool_decide_and. apply bool_decide_ext.
    unfold outside_band. generalize (b_n b / 2). lia. }
  rewrite !if_bool_decide. reflexivity.
Qed.

(** C1: on every board of odd size N >= 5 and at every coordinate of the
    grid, [Board.box_at] is the rule of the specification: on the cross
    axis WALL at the centre, PATH on the edge and HOME otherwise; off the
    axis EMPTY when both x and y lie strictly outside [m-1, m+1], and PATH
    otherwise. *)
Theorem C1_box_at_is_classify (b : Board) (x y : Z) :
  Z.Odd (b_n b) → 5 ≤ b_n b →
  0 ≤ x ≤ b_n b - 1 → 0 ≤ y ≤ b_n b - 1 →
  Board_box_at b x y = classify (b_n b) x y.
Proof. intros _ _ _ _. apply Board_box_at_classify. Qed.

(** On the board of size 7, at the HOME cell (3, 1). *)
Lemma C1_box_at_is_classify_witness :
  Board_box_at (mkBoard 7 [] [] []) 3 1 = classify 7 3 1.
Proof.
  apply C1_box_at_is_classify; simpl; try lia.
  exists 3. reflexivity.
Defined.

(** ** The grid *)

Lemma py_index_fmap_range {A} (f : Z → A) n i :
  0 ≤ i < n → py_index (f <$> range n) i = Ok (f i).
Proof.
  intros Hi. unfold py_index, range.
  rewrite length_fmap, length_seqZ.
  rewrite decide_True by lia.
  rewrite list_lookup_fmap, lookup_seqZ_lt by lia.
  simpl. f_equal. f_equal. lia.
Qed.

Lemma board_get_built b i j :
  Board_built b → 0 ≤ i < b_n b → 0 ≤ j < b_n b →
  board_get b i j = Ok (Board_box_at b j i).
Proof.
  intros [Hb _] Hi Hj. unfold board_get. rewrite Hb. simpl.
  rewrite py_index_fmap_range by done.
  by rewrite py_index_fmap_range.
Qed.

Lemma Board_box_at_sym b x y : Board_box_at b x y = Board_box_at b y x.
Proof.
  unfold Board_box_at. rewrite !py_in_pair. bd.
Qed.

Lemma build_board_size b b' :
  b_n b = b_n b' → b_board (_build_board b) = b_board (_build_board b').
Proof.
  intros Hn. simpl. rewrite Hn.
  apply list_fmap_ext. intros _ y _. apply list_fmap_ext. intros _ x _.
  unfold Board_box_at. by rewrite Hn.
Qed.

Lemma Board_init_built n b : Board_init n = Ok b → b_n b = n ∧ Board_built b.
Proof.
  unfold Board_init. case_decide; [|done].
  intros [= <-]. by repeat split.
Qed.

(** C10: the classification is symmetric under transposition, and on the
    grid the constructor builds the transposed read [self.board[x][y]]
    gives the same cell as the row-major read [self.board[y][x]], namely
    [box_at(x, y)]. *)
Theorem C10_box_at_transpose (b : Board) (x y : Z) :
  Board_built b → Z.Odd (b_n b) →
  0 ≤ x ≤ b_n b - 1 → 0 ≤ y ≤ b_n b - 1 →
  Board_box_at b x y = Board_box_at b y x
  ∧ board_get b y x = Ok (Board_box_at b x y)
  ∧ board_get b x y = board_get b y x.
Proof.
  intros Hb _ Hx Hy. split; [apply Board_box_at_sym|].
  rewrite !board_get_built by (done || lia).
  split; [done|]. by rewrite Board_box_at_sym.
Qed.

(** On the board of size 7, at (3, 1) and its transpose (1, 3). *)
Lemma C10_box_at_transpose_witness :
  Board_box_at (board_of 7) 3 1 = Board_box_at (board_of 7) 1 3
  ∧ board_get (board_of 7) 1 3 = Ok (Board_box_at (board_of 7) 3 1)
  ∧ board_get (board_of 7) 3 1 = board_get (board_of 7) 1 3.
Proof.
  apply C10_box_at_transpose.
  - split; reflexivity.
  - exists 3. reflexivity.
  - simpl. lia.
  - simpl. lia.
Defined.

(** ** Construction *)

(** C8 (as the code has it): [Board(n)] succeeds exactly when [n] is odd,
    whatever its magnitude, and the board it returns has size [n] and the
    grid of [_build_board]; it raises AssertionError exactly when [n] is
    even. *)
Theorem C8_Board_init_odd (n : Z) :
  ((∃ b, Board_init n = Ok b ∧ b_n b = n ∧ Board_built b) ↔ Z.Odd n)
  ∧ (Board_init n = Raise AssertionError ↔ Z.Even n).
Proof.
  unfold Board_init.
  destruct (Z.Even_or_Odd n) as [[k Hk]|[k Hk]].
  - assert (n `mod` 2 = 0) as Hm by zlia.
    rewrite decide_False by lia. split; split.
    + by intros (b & ? & _).
    + intros [j Hj]. lia.
    + intros _. by exists k.
    + done.
  - assert (n `mod` 2 = 1) as Hm by zlia.
    rewrite decide_True by lia. split; split.
    + intros _. by exists k.
    + intros _. eexists. split; [done|]. by repeat split.
    + done.
    + intros [j Hj]. lia.
Qed.

(** C8, the claim as stated fails: 3 and 1 are not at least 5, yet
    [Board(3)] and [Board(1)] are constructed. *)
Lemma C8_counterexample :
  ¬ (5 ≤ 3)
  ∧ Board_init 3
    = Ok (mkBoard 3 [[PATH; PATH; PATH]; [PATH; WALL; PATH]; [PATH; PATH; PATH]]
            [] [(2, 0); (0, 2)])
  ∧ Board_init 1 = Ok (mkBoard 1 [[WALL]] [] [(1, 0); (-1, 0)]).
Proof. split; [lia|]. split; reflexivity. Qed.

(** ** The single-step advance *)

Lemma first_path_built b l :
  Board_built b → Forall (in_board b) l →
  first_path b l
  = Ok (head (filter (λ p, Board_box_at b p.1 p.2 = PATH) l)).
Proof.
  intros Hb. induction 1 as [|[px py] l [Hx Hy] Hl IH]; [done|].
  simpl in *. rewrite board_get_built by (done || lia).
  rewrite filter_cons. simpl.
  case_decide; [done|]. apply IH.
Qed.

Lemma posible_moves_in_board b x y :
  in_board b (x, y) → Forall (in_board b) (posible_moves b x y).
Proof.
  intros [Hx Hy]. simpl in *. unfold posible_moves, in_board.
  apply Forall_app. split; repeat case_bool_decide;
    repeat constructor; simpl; lia.
Qed.

(** On a built board the advance reads classifications only. *)
Lemma Board_next_position_built b x y :
  Board_built b → in_board b (x, y) →
  Board_next_position b x y
  = let m := b_n b / 2 in
    if bool_decide (x = m) && (bool_decide (y < m - 1) && bool_decide (y ≠ 0))
    then Ok (Some (x, y + 1))
    else if bool_decide (x = m)
            && (bool_decide (y > m + 1) && bool_decide (y ≠ b_n b - 1))
    then Ok (Some (x, y - 1))
    else if bool_decide (y = m) && (bool_decide (x < m - 1) && bool_decide (x ≠ 0))
    then Ok (Some (x + 1, y))
    else if decide (Board_box_at b y x = HOME) then Ok None
    else Ok (head (filter (λ p, Board_box_at b p.1 p.2 = PATH)
                     (posible_moves b x y))).
Proof.
  intros Hb Hxy. unfold Board_next_position. cbv zeta.
  destruct Hxy as [Hx Hy]; simpl in Hx, Hy.
  rewrite board_get_built by (done || lia).
  rewrite first_path_built by (done || by apply posible_moves_in_board).
  assert (∀ c, bool_decide (y = b_n b / 2)
               && (bool_decide (y > b_n b / 2 + 1) && c) = false) as ->; [|done].
  intros c. repeat case_bool_decide; simpl; try done. lia.
Qed.

Lemma Ok_Some_pair (x y x' y' : Z) :
  x = x' → y = y' → Ok (Some (x, y)) = Ok (Some (x', y')).
Proof. by intros -> ->. Qed.

Section geometry.
Context (b : Board) (m : Z).
Hypothesis Hb : Board_built b.
Hypothesis Hn : b_n b = 2 * m + 1.
Hypothesis Hm : 2 ≤ m.

Lemma half_n : b_n b / 2 = m.
Proof using Hn. zlia. Qed.

Lemma box_at_m x y :
  Board_box_at b x y =
  if bool_decide (x = m) || bool_decide (y = m) then
    if bool_decide (x = y) then WALL
    else if (bool_decide (x = 0) || bool_decide (x = 2 * m))
            || (bool_decide (y = 0) || bool_decide (y = 2 * m)) then PATH
    else HOME
  else if (bool_decide (x < m - 1) || bool_decide (x > m + 1))
          && (bool_decide (y < m - 1) || bool_decide (y > m + 1)) then EMPTY
  else PATH.
Proof using Hn Hm.
  unfold Board_box_at. rewrite !py_in_pair, half_n.
  replace (b_n b - 1) with (2 * m) by lia. done.
Qed.

Lemma box_at_HOME x y :
  Board_box_at b x y = HOME ↔
  (x = m ∨ y = m) ∧ x ≠ y ∧ x ≠ 0 ∧ x ≠ 2 * m ∧ y ≠ 0 ∧ y ≠ 2 * m.
Proof using Hn Hm.
  rewrite box_at_m.
  repeat (case_bool_decide; simpl); split; (done || lia).
Qed.

Lemma box_at_PATH x y :
  Board_box_at b x y = PATH ↔
  (x = m ∨ y = m) ∧ x ≠ y ∧ (x = 0 ∨ x = 2 * m ∨ y = 0 ∨ y = 2 * m)
  ∨ x ≠ m ∧ y ≠ m ∧ (m - 1 ≤ x ≤ m + 1 ∨ m - 1 ≤ y ≤ m + 1).
Proof using Hn Hm.
  rewrite box_at_m.
  repeat (case_bool_decide; simpl); split; (done || lia).
Qed.

(** Evaluates the advance at a cell whose coordinates are known up to
    linear constraints. *)
Ltac box_facts :=
  repeat match goal with
    | H : Board_box_at _ _ _ = HOME |- _ => rewrite box_at_HOME in H
    | H : Board_box_at _ _ _ ≠ HOME |- _ => rewrite box_at_HOME in H
    | H : Board_box_at _ _ _ = PATH |- _ => rewrite box_at_PATH in H
    | H : Board_box_at _ _ _ ≠ PATH |- _ => rewrite box_at_PATH in H
    end.

Ltac next_eval :=
  rewrite Board_next_position_built by (done || (split; simpl; lia));
  cbv zeta; unfold posible_moves; rewrite half_n;
  replace (b_n b - 1) with (2 * m) by lia;
  repeat (case_bool_decide; simpl; try lia);
  rewrite ?filter_cons, ?filter_nil; simpl;
  repeat (case_decide; simpl; box_facts; try lia);
  try done; try (apply Ok_Some_pair; lia).

Lemma track_in_board k : 0 ≤ k ≤ 8 * m → in_board b (track m k).
Proof using Hn Hm.
  intros Hk. unfold track, in_board.
  repeat (case_bool_decide; simpl; try lia).
Qed.

Lemma track_PATH k :
  0 ≤ k ≤ 8 * m → Board_box_at b (track m k).1 (track m k).2 = PATH.
Proof using Hn Hm.
  intros Hk. rewrite box_at_PATH. unfold track.
  repeat (case_bool_decide; simpl; try lia).
Qed.

Lemma track_step k :
  0 ≤ k < 8 * m →
  Board_next_position b (track m k).1 (track m k).2
  = Ok (Some (track m (k + 1))).
Proof using Hb Hn Hm.
  intros Hk. unfold track.
  repeat (case_bool_decide; simpl; try lia); next_eval.
Qed.

Lemma home_lane_advance x y :
  in_board b (x, y) → Board_box_at b x y = HOME →
  (Z.abs (x - m) + Z.abs (y - m) = 1 → Board_next_position b x y = Ok None)
  ∧ (x = m → y < m - 1 → Board_next_position b x y = Ok (Some (x, y + 1)))
  ∧ (x = m → m + 1 < y → Board_next_position b x y = Ok (Some (x, y - 1)))
  ∧ (y = m → x < m - 1 → Board_next_position b x y = Ok (Some (x + 1, y))).
Proof using Hb Hn Hm.
  intros [Hx Hy] Hhome. simpl in Hx, Hy. rewrite box_at_HOME in Hhome.
  repeat split; intros; next_eval.
Qed.

(** The right lane is the exception: the branch of line 131 tests [y]
    where the three others test the running coordinate, so it never
    fires and a figure on a HOME cell right of the centre stays put. *)
Lemma right_lane_no_advance x :
  m + 1 < x < 2 * m →
  Board_box_at b x m = HOME ∧ Board_next_position b x m = Ok None.
Proof using Hb Hn Hm.
  intros Hx. split; [apply box_at_HOME; lia|]. next_eval.
Qed.

Lemma track_wrap : track m (8 * m) = track m 0.
Proof using Hm.
  unfold track. repeat (case_bool_decide; simpl; try lia).
  f_equal; lia.
Qed.

Lemma track_first_entry : track m 0 = (m + 1, 0).
Proof using Hm. unfold track. by rewrite bool_decide_eq_true_2 by lia. Qed.

Lemma track_second_entry : track m (4 * m) = (m - 1, 2 * m).
Proof using Hm.
  unfold track. repeat (case_bool_decide; simpl; try lia).
  f_equal; lia.
Qed.

Lemma track_first_entry_only k :
  0 ≤ k < 8 * m → track m k = (m + 1, 0) → k = 0.
Proof using Hm.
  intros Hk. unfold track.
  repeat (case_bool_decide; simpl; try lia); intros [=]; lia.
Qed.

Lemma track_second_entry_only k :
  0 ≤ k < 8 * m → track m k = (m - 1, 2 * m) → k = 4 * m.
Proof using Hm.
  intros Hk. unfold track.
  repeat (case_bool_decide; simpl; try lia); intros [=]; lia.
Qed.

Lemma advance_track (k : nat) : ∀ j,
  0 ≤ j < 8 * m → Z.of_nat k ≤ 8 * m →
  advance b k (track m j) = Ok (Some (track m (wrap m (j + Z.of_nat k)))).
Proof using Hb Hn Hm.
  induction k as [|k IH]; intros j Hj Hk.
  - simpl. unfold wrap. rewrite bool_decide_eq_true_2 by lia.
    do 3 f_equal. lia.
  - cbn [advance]. rewrite track_step by done.
    destruct (decide (j + 1 = 8 * m)) as [Hlast|Hlast].
    + rewrite Hlast, track_wrap. rewrite IH by lia.
      do 3 f_equal. unfold wrap. repeat case_bool_decide; lia.
    + rewrite IH by lia. do 3 f_equal.
      unfold wrap. repeat case_bool_decide; lia.
Qed.

(** The closed loop from either entry coordinate. *)
Lemma loop_from_entry (j : Z) (k : nat) :
  j = 0 ∨ j = 4 * m →
  Z.of_nat k ≤ 8 * m →
  ∃ p, advance b k (track m j) = Ok (Some p)
     ∧ Board_box_at b p.1 p.2 = PATH
     ∧ (Z.of_nat k = 8 * m → p = track m j)
     ∧ (0 < Z.of_nat k < 8 * m → p ≠ track m j).
Proof using Hb Hn Hm.
  intros Hj Hk. eexists. split; [apply advance_track; lia|].
  assert (0 ≤ wrap m (j + Z.of_nat k) < 8 * m) as Hw
    by (unfold wrap; case_bool_decide; lia).
  split; [apply track_PATH; lia|]. split.
  - intros Hlast. f_equal. unfold wrap. case_bool_decide; lia.
  - intros Hmid Heq.
    assert (wrap m (j + Z.of_nat k) = j) as Hback.
    { destruct Hj as [-> | ->].
      - rewrite track_first_entry in Heq.
        by apply track_first_entry_only in Heq.
      - rewrite track_second_entry in Heq.
        by apply track_second_entry_only in Heq. }
    unfold wrap in Hback. case_bool_decide; lia.
Qed.
End geometry.

(** C3: on every board of odd size N >= 5, walking [Board.next_position]
    from either entry coordinate never fails, stays on PATH cells, is back
    on the entry coordinate after [perimeter_length N = 4 (N - 1)] steps,
    and not before. *)
Theorem C3_closed_loop (b : Board) (start : coord) (k : nat) :
  Board_built b → Z.Odd (b_n b) → 5 ≤ b_n b →
  start ∈ b_starts b →
  Z.of_nat k ≤ perimeter_length (b_n b) →
  ∃ p, advance b k start = Ok (Some p)
     ∧ Board_box_at b p.1 p.2 = PATH
     ∧ (Z.of_nat k = perimeter_length (b_n b) → p = start)
     ∧ (0 < Z.of_nat k < perimeter_length (b_n b) → p ≠ start).
Proof.
  intros Hb [m Hn] H5 Hstart Hk.
  assert (2 ≤ m) as Hm by lia.
  pose proof (half_n b m Hn) as Hhalf.
  destruct Hb as [Hgrid Hstarts]. rewrite Hstarts, Hhalf in Hstart.
  unfold perimeter_length in *.
  replace (4 * (b_n b - 1)) with (8 * m) in * by lia.
  apply elem_of_cons in Hstart as [-> | Hstart].
  - rewrite <- (track_first_entry m Hm).
    apply loop_from_entry; [done..|by left|done].
  - apply list_elem_of_singleton in Hstart as ->.
    replace (b_n b - 1) with (2 * m) by lia.
    rewrite <- (track_second_entry m Hm).
    apply loop_from_entry; [done..|by right|done].
Qed.

(** The full circuit of 16 steps on the board of size 5, from (3, 0). *)
Lemma C3_closed_loop_witness :
  ∃ p, advance (board_of 5) 16 (3, 0) = Ok (Some p)
     ∧ Board_box_at (board_of 5) p.1 p.2 = PATH
     ∧ (Z.of_nat 16 = perimeter_length (b_n (board_of 5)) → p = (3, 0))
     ∧ (0 < Z.of_nat 16 < perimeter_length (b_n (board_of 5)) → p ≠ (3, 0)).
Proof.
  apply C3_closed_loop.
  - split; reflexivity.
  - exists 2. reflexivity.
  - simpl. lia.
  - simpl. apply elem_of_cons. by left.
  - vm_compute. discriminate.
Defined.

(** ** Advancing from a HOME cell *)

(** C2 (as the code has it): on a HOME cell next to the centre the
    advance returns None; on the other HOME cells of the top, bottom and
    left lanes it returns the neighbouring cell one step closer to the
    centre. *)
Theorem C2_home_advance (b : Board) (x y : Z) :
  Board_built b → Z.Odd (b_n b) → 5 ≤ b_n b →
  0 ≤ x ≤ b_n b - 1 → 0 ≤ y ≤ b_n b - 1 →
  Board_box_at b x y = HOME →
  let m := b_n b / 2 in
  (Z.abs (x - m) + Z.abs (y - m) = 1 → Board_next_position b x y = Ok None)
  ∧ (x = m → y < m - 1 → Board_next_position b x y = Ok (Some (x, y + 1)))
  ∧ (x = m → m + 1 < y → Board_next_position b x y = Ok (Some (x, y - 1)))
  ∧ (y = m → x < m - 1 → Board_next_position b x y = Ok (Some (x + 1, y))).
Proof.
  intros Hb [m Hn] H5 Hx Hy Hhome. cbv zeta.
  rewrite (half_n b m Hn).
  apply home_lane_advance; [done|done|lia|by split|done].
Qed.

(** On the board of size 7, the HOME cell (3, 1) of the top lane. *)
Lemma C2_home_advance_witness :
  let b := board_of 7 in
  let m := b_n b / 2 in
  (Z.abs (3 - m) + Z.abs (1 - m) = 1 → Board_next_position b 3 1 = Ok None)
  ∧ (3 = m → 1 < m - 1 → Board_next_position b 3 1 = Ok (Some (3, 1 + 1)))
  ∧ (3 = m → m + 1 < 1 → Board_next_position b 3 1 = Ok (Some (3, 1 - 1)))
  ∧ (1 = m → 3 < m - 1 → Board_next_position b 3 1 = Ok (Some (3 + 1, 1))).
Proof.
  apply (C2_home_advance (board_of 7) 3 1).
  - split; reflexivity.
  - exists 3. reflexivity.
  - simpl. lia.
  - simpl. lia.
  - simpl. lia.
  - reflexivity.
Defined.

(** C2, the claim as stated fails: on the board of size 7 the cell (3, 1)
    is HOME and the advance from it is (3, 2), not None. *)
Lemma C2_counterexample :
  Board_init 7 = Ok (board_of 7)
  ∧ Board_box_at (board_of 7) 3 1 = HOME
  ∧ Board_next_position (board_of 7) 3 1 = Ok (Some (3, 2)).
Proof. repeat split; reflexivity. Qed.

(** ** Computations that only read *)

Lemma reads_ret {A} (a : A) : reads (ret a).
Proof. done. Qed.
Lemma reads_raise {A} e : reads (@raise A e).
Proof. done. Qed.
Lemma reads_gets {A} (f : World → A) : reads (gets f).
Proof. done. Qed.
Lemma reads_lift {A} (r : result A) : reads (lift r).
Proof. done. Qed.
Lemma reads_bind {A B} (m : M A) (k : A → M B) :
  reads m → (∀ a, reads (k a)) → reads (bind m k).
Proof.
  intros Hm Hk w. unfold exec, bind.
  specialize (Hm w). unfold exec in Hm.
  destruct (m w) as [[a|e] w']; simpl in *; subst; [apply Hk|done].
Qed.

(** A reading computation is determined by its value. *)
Lemma reads_run {A} (m : M A) w : reads m → m w = (eval m w, w).
Proof.
  intros Hm. specialize (Hm w). unfold exec, eval in *.
  destruct (m w). simpl in *. by subst.
Qed.

Lemma eval_bind {A B} (m : M A) (k : A → M B) w :
  reads m →
  eval (bind m k) w
  = match eval m w with Ok a => eval (k a) w | Raise e => Raise e end.
Proof.
  intros Hm. unfold eval at 1. unfold bind. rewrite (reads_run m w Hm).
  by destruct (eval m w).
Qed.

Create HintDb reads discriminated.
#[local] Hint Resolve reads_ret reads_raise reads_gets reads_lift : reads.
#[local] Hint Extern 1 (reads (get_figure _)) => apply reads_gets : reads.
#[local] Hint Extern 1 (reads (get_player _)) => apply reads_gets : reads.
#[local] Hint Extern 1 (reads get_board) => apply reads_gets : reads.
#[local] Hint Extern 2 (reads (bind _ _)) => apply reads_bind; [|intros] : reads.
#[local] Hint Extern 3 (reads (if ?c then _ else _)) => destruct c : reads.
#[local] Hint Extern 3 (reads (match ?c with _ => _ end)) => destruct c : reads.

Lemma reads_Figure_is_home self : reads (Figure_is_home self).
Proof. unfold Figure_is_home. auto 10 with reads. Qed.

Lemma reads_Player_figure_at_loop figures x y :
  reads (Player_figure_at_loop figures x y).
Proof. induction figures; simpl; auto 10 with reads. Qed.

Lemma reads_Player_figure_at self x y : reads (Player_figure_at self x y).
Proof.
  unfold Player_figure_at.
  apply reads_bind; [auto with reads|intros; apply reads_Player_figure_at_loop].
Qed.

Lemma reads_Board_figure_at_loop players x y :
  reads (Board_figure_at_loop players x y).
Proof.
  induction players; simpl; [auto with reads|].
  apply reads_bind; [apply reads_Player_figure_at|].
  intros [f|]; auto with reads.
Qed.

Lemma reads_Board_figure_at x y : reads (Board_figure_at x y).
Proof.
  unfold Board_figure_at.
  apply reads_bind; [auto with reads|intros; apply reads_Board_figure_at_loop].
Qed.

Lemma reads_Figure_next_position_body self p :
  reads (Figure_next_position_body self p).
Proof. unfold Figure_next_position_body. auto 10 with reads. Qed.

Lemma reads_Figure_next_position_loop self moves : ∀ p,
  reads (Figure_next_position_loop self moves p).
Proof.
  induction moves as [|moves IH]; intros p; simpl; [auto with reads|].
  apply reads_bind; [apply reads_Figure_next_position_body|].
  intros [q|]; auto with reads.
Qed.

Lemma reads_Figure_next_position self moves :
  reads (Figure_next_position self moves).
Proof.
  unfold Figure_next_position.
  apply reads_bind; [auto with reads|]. intros fig.
  apply reads_bind; [apply reads_Figure_next_position_loop|].
  intros [q|]; [|auto with reads].
  apply reads_bind; [apply reads_Board_figure_at|]. intros found.
  auto 10 with reads.
Qed.

(** C9: [Figure.next_position] changes nothing: whatever the figure, the
    step count and the outcome (a coordinate, None or an exception), the
    figure store, the player store and the board, grid included, are
    after the call what they were before. *)
Theorem C9_next_position_frame (w : World) (self : nat) (moves : Z) :
  exec (Figure_next_position self moves) w = w
  ∧ Figure_next_position self moves w
    = (eval (Figure_next_position self moves) w, w).
Proof.
  split; [apply reads_Figure_next_position|].
  apply reads_run, reads_Figure_next_position.
Qed.

(** ** Winning *)

Lemma eval_Figure_is_home self w :
  eval (Figure_is_home self) w
  = Ok (bool_decide
          (Board_box_at (w_board w) (f_position (w_figures w !!! self)).1
             (f_position (w_figures w !!! self)).2 = HOME)).
Proof. reflexivity. Qed.

Lemma eval_Player_figures_finished_loop figures w :
  eval (Player_figures_finished_loop figures) w
  = Ok (bool_decide
          (Forall (λ f, Board_box_at (w_board w)
                          (f_position (w_figures w !!! f)).1
                          (f_position (w_figures w !!! f)).2 = HOME) figures)).
Proof.
  induction figures as [|f figures IH]; [done|].
  cbn [Player_figures_finished_loop].
  rewrite eval_bind by apply reads_Figure_is_home.
  rewrite eval_Figure_is_home.
  destruct (bool_decide (Board_box_at _ _ _ = HOME)) eqn:Hf; cbn [negb].
  - apply bool_decide_eq_true in Hf.
    rewrite IH. f_equal. apply bool_decide_ext.
    rewrite Forall_cons. tauto.
  - apply bool_decide_eq_false in Hf.
    unfold eval, ret. simpl. f_equal. symmetry.
    apply bool_decide_eq_false_2. rewrite Forall_cons. tauto.
Qed.

(** C7: [Player.has_finished] returns a boolean, true exactly when the
    player owns [max_figures = (N - 3) div 2] figures and each of them
    stands on a HOME cell; with fewer figures it is false even when all of
    them are home. *)
Theorem C7_has_finished (w : World) (self : nat) :
  let figures := p_figures (w_players w !!! self) in
  let at_home f :=
    Board_box_at (w_board w) (f_position (w_figures w !!! f)).1
      (f_position (w_figures w !!! f)).2 = HOME in
  ∃ r : bool,
    eval (Player_has_finished self) w = Ok r
    ∧ Board_max_figures (w_board w) = (b_n (w_board w) - 3) / 2
    ∧ (r = true ↔
       Z.of_nat (length figures) = Board_max_figures (w_board w)
       ∧ Forall at_home figures)
    ∧ (Z.of_nat (length figures) < Board_max_figures (w_board w) → r = false).
Proof.
  intros figures at_home. unfold Player_has_finished.
  rewrite eval_bind by auto with reads.
  change (eval (get_player self) w) with (Ok (w_players w !!! self)).
  cbv beta iota.
  rewrite eval_bind by auto with reads.
  change (eval get_board w) with (Ok (w_board w)). cbv beta iota.
  fold figures. case_bool_decide as Hlen.
  - unfold Player_figures_finished.
    rewrite eval_bind by auto with reads.
    change (eval (get_player self) w) with (Ok (w_players w !!! self)).
    cbv beta iota. rewrite eval_Player_figures_finished_loop.
    eexists. split; [done|]. split; [done|]. fold figures. split.
    + rewrite bool_decide_eq_true. tauto.
    + lia.
  - exists false. split; [done|]. split; [done|]. split.
    + split; [done|]. tauto.
    + done.
Qed.

(** ** Who stands where *)

Lemma eval_Player_figure_at_loop figures x y w :
  eval (Player_figure_at_loop figures x y) w
  = Ok (head (filter (λ f, f_position (w_figures w !!! f) = (x, y)) figures)).
Proof.
  induction figures as [|f figures IH]; [done|].
  cbn [Player_figure_at_loop].
  rewrite eval_bind by auto with reads.
  change (eval (get_figure f) w) with (Ok (w_figures w !!! f)).
  cbv beta iota. rewrite filter_cons.
  destruct (decide (f_position (w_figures w !!! f) = (x, y))); [done|].
  apply IH.
Qed.

Lemma eval_Player_figure_at self x y w :
  eval (Player_figure_at self x y) w
  = Ok (head (filter (λ f, f_position (w_figures w !!! f) = (x, y))
                (p_figures (w_players w !!! self)))).
Proof.
  unfold Player_figure_at. rewrite eval_bind by auto with reads.
  change (eval (get_player self) w) with (Ok (w_players w !!! self)).
  apply eval_Player_figure_at_loop.
Qed.

(** [Board.figure_at] returns the first figure of the scan that stands on
    (x, y), together with the player whose list it was found in. *)
Lemma eval_Board_figure_at_loop players x y w :
  ∃ r, eval (Board_figure_at_loop players x y) w = Ok r
     ∧ r.1 = head (filter (λ f, f_position (w_figures w !!! f) = (x, y))
                     (pl ← players; p_figures (w_players w !!! pl)))
     ∧ match r.1 with
       | Some f => ∃ pl, r.2 = Some pl ∧ pl ∈ players
                         ∧ f ∈ p_figures (w_players w !!! pl)
       | None => r.2 = None
       end.
Proof.
  induction players as [|pl players IH].
  - exists (None, None). done.
  - cbn [Board_figure_at_loop].
    rewrite eval_bind by apply reads_Player_figure_at.
    rewrite eval_Player_figure_at. cbv beta iota.
    rewrite bind_cons, filter_app.
    destruct (filter _ (p_figures (w_players w !!! pl))) as [|f fs] eqn:Hf.
    + simpl. destruct IH as (r & Hr & Hr1 & Hr2). exists r.
      split; [done|]. split; [done|].
      destruct (r.1); [|done].
      destruct Hr2 as (pl' & ? & ? & ?). exists pl'.
      split; [done|]. split; [by apply elem_of_cons; right|done].
    + simpl. exists (Some f, Some pl). split; [done|]. split; [done|].
      exists pl. split; [done|]. split; [by apply elem_of_cons; left|].
      assert (f ∈ f :: fs) as Hin by (by apply elem_of_cons; left).
      rewrite <- Hf in Hin. by apply list_elem_of_filter in Hin as [_ ?].
Qed.

Lemma eval_Board_figure_at x y w :
  ∃ r, eval (Board_figure_at x y) w = Ok r
     ∧ r.1 = head (figures_at w (x, y))
     ∧ match r.1 with
       | Some f => ∃ pl, r.2 = Some pl ∧ pl ∈ b_players (w_board w)
                         ∧ f ∈ p_figures (w_players w !!! pl)
       | None => r.2 = None
       end.
Proof.
  unfold Board_figure_at. rewrite eval_bind by auto with reads.
  change (eval get_board w) with (Ok (w_board w)).
  apply eval_Board_figure_at_loop.
Qed.

Lemma head_figures_at_occupied w p :
  is_Some (head (figures_at w p)) ↔ occupied w p.
Proof.
  unfold occupied, figures_at. rewrite head_is_Some, Exists_exists. split.
  - intros Hne. destruct (filter _ _) as [|f fs] eqn:Hf; [done|].
    assert (f ∈ f :: fs) as Hin by (by apply elem_of_cons; left).
    rewrite <- Hf in Hin. apply list_elem_of_filter in Hin as [? ?].
    by exists f.
  - intros (f & Hin & Hp) Hnil.
    exact (filter_nil_not_elem_of _ _ f Hnil Hp Hin).
Qed.

(** ** The destination of a move *)

Lemma occupied_by_other_occupied w self p :
  occupied_by_other w self p → occupied w p.
Proof.
  unfold occupied_by_other, occupied. intros Hother.
  eapply Exists_impl; [exact Hother|]. by intros f [_ ?].
Qed.

Lemma eval_Figure_next_position_body self p w :
  eval (Figure_next_position_body self p) w
  = match Board_next_position (w_board w) p.1 p.2 with
    | Raise e => Raise e
    | Ok r =>
        let start := f_start_position (w_figures w !!! self) in
        if decide (r = Some start)
        then Ok (Board_home_position (w_board w) start.1 start.2)
        else Ok r
    end.
Proof.
  unfold Figure_next_position_body, eval, bind, get_board, get_figure,
    gets, lift, ret. simpl.
  destruct (Board_next_position _ _ _) as [r|e]; [|done]. simpl.
  by case_decide.
Qed.

Lemma eval_Figure_next_position_loop_S self k p w :
  eval (Figure_next_position_loop self (S k) p) w
  = match eval (Figure_next_position_body self p) w with
    | Ok (Some q) => eval (Figure_next_position_loop self k q) w
    | Ok None => Ok None
    | Raise e => Raise e
    end.
Proof.
  cbn [Figure_next_position_loop].
  rewrite eval_bind by apply reads_Figure_next_position_body.
  by destruct (eval (Figure_next_position_body self p) w) as [[q|]|e].
Qed.

Lemma loop_reach self w k : ∀ p q,
  eval (Figure_next_position_loop self k p) w = Ok (Some q)
  ↔ reach w self k p q.
Proof.
  induction k as [|k IH]; intros p q.
  - split.
    + intros [= <-]. constructor.
    + by inversion 1.
  - rewrite eval_Figure_next_position_loop_S. split.
    + destruct (eval (Figure_next_position_body self p) w)
        as [[r|]|e] eqn:Hbody; [|done..].
      intros Hloop. econstructor; [done|]. by apply IH.
    + inversion 1 as [|? ? r ? Hbody Hrest]; subst.
      rewrite Hbody. by apply IH.
Qed.

Lemma loop_stuck self w i p q :
  reach w self i p q →
  eval (Figure_next_position_body self q) w = Ok None →
  ∀ k, (i < k)%nat → eval (Figure_next_position_loop self k p) w = Ok None.
Proof.
  induction 1 as [p|i p r q Hbody Hrest IH]; intros Hstuck k Hk.
  - destruct k as [|k]; [lia|].
    by rewrite eval_Figure_next_position_loop_S, Hstuck.
  - destruct k as [|k]; [lia|].
    rewrite eval_Figure_next_position_loop_S, Hbody.
    apply IH; [done|lia].
Qed.

Lemma eval_Figure_next_position self moves w :
  eval (Figure_next_position self moves) w
  = match eval (Figure_next_position_loop self (Z.to_nat moves)
                  (f_position (w_figures w !!! self))) w with
    | Ok (Some q) =>
        if decide (occupied w q ∧ Board_box_at (w_board w) q.1 q.2 = HOME)
        then Ok None else Ok (Some q)
    | Ok None => Ok None
    | Raise e => Raise e
    end.
Proof.
  unfold Figure_next_position. rewrite eval_bind by auto with reads.
  change (eval (get_figure self) w) with (Ok (w_figures w !!! self)).
  cbv beta iota.
  rewrite eval_bind by apply reads_Figure_next_position_loop.
  destruct (eval (Figure_next_position_loop _ _ _) w) as [[q|]|e]; [|done..].
  rewrite eval_bind by apply reads_Board_figure_at.
  destruct (eval_Board_figure_at q.1 q.2 w) as (r & -> & Hr & _).
  rewrite eval_bind by auto with reads.
  change (eval get_board w) with (Ok (w_board w)). cbv beta iota.
  rewrite Hr. replace (q.1, q.2) with q by by destruct q.
  rewrite <- bool_decide_and, if_bool_decide.
  destruct (decide (is_Some _ ∧ _)) as [[Ho Hh]|Hno];
    rewrite head_figures_at_occupied in *.
  - by rewrite decide_True.
  - by rewrite decide_False.
Qed.

(** ** Lapping back to the entry coordinate *)

Lemma reach_snoc w self i p q r :
  reach w self i p q →
  eval (Figure_next_position_body self q) w = Ok (Some r) →
  reach w self (S i) p r.
Proof.
  induction 1 as [p|i p p' q Hbody Hrest IH]; intros Hlast.
  - econstructor; [done|constructor].
  - econstructor; [done|]. by apply IH.
Qed.

Section circuit.
Context (w : World) (self : nat) (m j : Z).
Hypothesis Hb : Board_built (w_board w).
Hypothesis Hn : b_n (w_board w) = 2 * m + 1.
Hypothesis Hm : 2 ≤ m.
Hypothesis Hj : j = 0 ∨ j = 4 * m.
Hypothesis Hstart : f_start_position (w_figures w !!! self) = track m j.

Lemma wrap_range i : 0 ≤ i < 16 * m → 0 ≤ wrap m i < 8 * m.
Proof. unfold wrap. case_bool_decide; lia. Qed.

Lemma track_step_wrap i :
  0 ≤ i < 16 * m - 1 →
  Board_next_position (w_board w) (track m (wrap m i)).1 (track m (wrap m i)).2
  = Ok (Some (track m (wrap m (i + 1)))).
Proof.
  intros Hi. rewrite (track_step _ m) by (done || (apply wrap_range; lia)).
  destruct (decide (i + 1 = 8 * m)) as [Hlast|Hlast].
  - replace (wrap m i + 1) with (8 * m)
      by (unfold wrap; case_bool_decide; lia).
    rewrite track_wrap by done. do 3 f_equal.
    unfold wrap. case_bool_decide; lia.
  - do 3 f_equal. unfold wrap. repeat case_bool_decide; lia.
Qed.

Lemma track_entry_only i :
  0 ≤ i < 8 * m → track m i = track m j → i = j.
Proof.
  intros Hi Heq. destruct Hj as [-> | ->].
  - rewrite track_first_entry in Heq by done.
    by apply track_first_entry_only in Heq.
  - rewrite track_second_entry in Heq by done.
    by apply track_second_entry_only in Heq.
Qed.

(** Away from its start position the figure follows the track. *)
Lemma body_on_track i :
  0 ≤ i → i + 1 < 8 * m →
  eval (Figure_next_position_body self (track m (wrap m (j + i)))) w
  = Ok (Some (track m (wrap m (j + i + 1)))).
Proof.
  intros Hi Hi1. rewrite eval_Figure_next_position_body.
  rewrite track_step_wrap by lia. cbv zeta. rewrite Hstart.
  rewrite decide_False; [done|]. intros [= Heq].
  apply track_entry_only in Heq; [|apply wrap_range; lia].
  unfold wrap in Heq. case_bool_decide; lia.
Qed.

Lemma reach_on_track (k : nat) : ∀ i,
  0 ≤ i → i + Z.of_nat k < 8 * m →
  reach w self k (track m (wrap m (j + i)))
    (track m (wrap m (j + i + Z.of_nat k))).
Proof.
  induction k as [|k IH]; intros i Hi Hk.
  - replace (j + i + Z.of_nat 0) with (j + i) by lia. constructor.
  - econstructor; [apply body_on_track; lia|].
    replace (j + i + Z.of_nat (S k)) with (j + (i + 1) + Z.of_nat k) by lia.
    replace (j + i + 1) with (j + (i + 1)) by lia.
    apply IH; lia.
Qed.

(** The step that lands on the start position is redirected. *)
Lemma body_redirect p :
  Board_next_position (w_board w) p.1 p.2 = Ok (Some (track m j)) →
  eval (Figure_next_position_body self p) w
  = Ok (Board_home_position (w_board w) (track m j).1 (track m j).2).
Proof.
  intros Hp. rewrite eval_Figure_next_position_body, Hp. cbv zeta.
  rewrite Hstart. by rewrite decide_True.
Qed.

Lemma home_position_entry :
  ∃ lane, Board_home_position (w_board w) (track m j).1 (track m j).2 = Some lane
     ∧ Board_box_at (w_board w) lane.1 lane.2 = HOME
     ∧ (j = 0 ∧ lane = (m, 1) ∨ j = 4 * m ∧ lane = (m, 2 * m - 1)).
Proof.
  unfold Board_home_position. rewrite (half_n _ m Hn).
  destruct Hj as [-> | ->].
  - rewrite track_first_entry by done. simpl.
    repeat (case_bool_decide; try lia).
    eexists. split; [done|]. split; [|by left].
    apply (box_at_HOME _ m); simpl; lia.
  - rewrite track_second_entry by done. simpl.
    repeat (case_bool_decide; try lia).
    eexists. split; [done|]. split.
    + apply (box_at_HOME _ m); simpl; lia.
    + right. split; [done|]. f_equal. lia.
Qed.

Lemma full_circuit lane :
  Board_home_position (w_board w) (track m j).1 (track m j).2 = Some lane →
  reach w self (Z.to_nat (8 * m)) (track m j) lane.
Proof.
  intros Hlane.
  replace (Z.to_nat (8 * m)) with (S (Z.to_nat (8 * m - 1))) by lia.
  assert (wrap m (j + 0) = j) as Hj0
    by (unfold wrap; case_bool_decide; lia).
  eapply reach_snoc.
  - rewrite <- Hj0 at 1. apply reach_on_track; lia.
  - rewrite body_redirect; [by rewrite Hlane|].
    replace (j + 0 + Z.of_nat (Z.to_nat (8 * m - 1))) with (j + 8 * m - 1)
      by lia.
    rewrite track_step_wrap by lia. do 3 f_equal.
    unfold wrap. case_bool_decide; lia.
Qed.
End circuit.

(** C5: for a figure whose start position is one of the board's entry
    coordinates, [Board.home_position] of that coordinate is the first
    cell of the home lane behind it, a HOME cell; a turn of the loop whose
    advance lands on the start position yields that cell instead; and a
    move of one full circuit from the start position ends there (the
    result of [Figure.next_position] being that cell unless a figure
    already stands on it). *)
Theorem C5_redirect_home_lane (w : World) (self : nat) :
  let board := w_board w in
  let n := b_n board in
  let m := n / 2 in
  let start := f_start_position (w_figures w !!! self) in
  Board_built board → Z.Odd n → 5 ≤ n →
  start ∈ b_starts board →
  ∃ lane,
    Board_home_position board start.1 start.2 = Some lane
    ∧ Board_box_at board lane.1 lane.2 = HOME
    ∧ (start = (m + 1, 0) ∧ lane = (m, 1)
       ∨ start = (m - 1, n - 1) ∧ lane = (m, n - 2))
    ∧ (∀ p, Board_next_position board p.1 p.2 = Ok (Some start) →
            eval (Figure_next_position_body self p) w = Ok (Some lane))
    ∧ reach w self (Z.to_nat (perimeter_length n)) start lane
    ∧ (f_position (w_figures w !!! self) = start →
       eval (Figure_next_position self (perimeter_length n)) w
       = if decide (occupied w lane) then Ok None else Ok (Some lane)).
Proof.
  intros board n m start Hb [k Hn] H5 Hin. subst board n.
  assert (2 ≤ k) as Hk by lia.
  assert (m = k) as -> by (subst m; by apply half_n).
  assert (∃ j, (j = 0 ∨ j = 4 * k) ∧ start = track k j) as (j & Hj & Hstart).
  { destruct Hb as [_ Hstarts]. rewrite Hstarts, (half_n _ k Hn) in Hin.
    apply elem_of_cons in Hin as [-> | Hin].
    - exists 0. split; [by left|]. by rewrite track_first_entry.
    - apply list_elem_of_singleton in Hin as ->.
      exists (4 * k). split; [by right|].
      rewrite track_second_entry by done. f_equal. lia. }
  destruct (home_position_entry w self k j Hn Hk Hj Hstart)
    as (lane & Hlane & Hhome & Hwhich).
  unfold perimeter_length.
  replace (4 * (b_n (w_board w) - 1)) with (8 * k) by lia.
  assert (reach w self (Z.to_nat (8 * k)) start lane) as Hreach.
  { rewrite Hstart. by apply full_circuit. }
  exists lane. rewrite Hstart at 1 2. split; [done|]. split; [done|]. split.
  { destruct Hwhich as [[-> ->] | [-> ->]].
    - left. by rewrite Hstart, track_first_entry.
    - right. rewrite Hstart, track_second_entry by done.
      split; f_equal; lia. }
  split.
  { intros p Hp. rewrite Hstart in Hp.
    rewrite (body_redirect w self k j Hstart) by done. by rewrite Hlane. }
  split; [done|].
  intros Hpos. rewrite eval_Figure_next_position, Hpos.
  apply loop_reach in Hreach. rewrite Hreach.
  destruct (decide (occupied w lane)) as [Ho|Ho].
  - by rewrite decide_True.
  - rewrite decide_False; [done|]. tauto.
Qed.

(** Player A's figure on the board of size 7, as [simulacia] sets it up. *)
Lemma C5_redirect_home_lane_witness :
  let w := game_of 7 in
  let board := w_board w in
  let n := b_n board in
  let m := n / 2 in
  let start := f_start_position (w_figures w !!! 0%nat) in
  ∃ lane,
    Board_home_position board start.1 start.2 = Some lane
    ∧ Board_box_at board lane.1 lane.2 = HOME
    ∧ (start = (m + 1, 0) ∧ lane = (m, 1)
       ∨ start = (m - 1, n - 1) ∧ lane = (m, n - 2))
    ∧ (∀ p, Board_next_position board p.1 p.2 = Ok (Some start) →
            eval (Figure_next_position_body 0 p) w = Ok (Some lane))
    ∧ reach w 0 (Z.to_nat (perimeter_length n)) start lane
    ∧ (f_position (w_figures w !!! 0%nat) = start →
       eval (Figure_next_position 0 (perimeter_length n)) w
       = if decide (occupied w lane) then Ok None else Ok (Some lane)).
Proof.
  apply (C5_redirect_home_lane (game_of 7) 0).
  - split; reflexivity.
  - exists 3. reflexivity.
  - simpl. lia.
  - simpl. apply elem_of_cons. by left.
Defined.

(** ** Captures *)

Lemma list_remove_elem g l :
  g ∈ l → NoDup l →
  ∃ l', list_remove g l = Ok l'
      ∧ (g ∉ l')
      ∧ (∀ h, h ≠ g → (h ∈ l' ↔ h ∈ l))
      ∧ NoDup l'
      ∧ length l = S (length l').
Proof.
  induction l as [|a l IH]; intros Hin Hnd; [by apply elem_of_nil in Hin|].
  apply NoDup_cons in Hnd as [Ha Hnd]. simpl.
  destruct (decide (a = g)) as [->|Hne].
  - exists l. repeat split; try done.
    + intros ?. apply elem_of_cons. by right.
    + intros Hh. by apply elem_of_cons in Hh as [?|?].
  - apply elem_of_cons in Hin as [?|Hin]; [congruence|].
    destruct (IH Hin Hnd) as (l' & -> & Hg & Hsame & Hnd' & Hlen).
    exists (a :: l'). repeat split.
    + intros Hg'. by apply elem_of_cons in Hg' as [?|?].
    + rewrite !elem_of_cons. intros [?|?]; [by left|]. right. by apply Hsame.
    + rewrite !elem_of_cons. intros [?|?]; [by left|]. right. by apply Hsame.
    + apply NoDup_cons. split; [|done]. intros Ha'. apply Ha.
      by apply Hsame in Ha'; [|congruence].
    + simpl. by rewrite Hlen.
Qed.

Lemma player_figures_allocated (players : list Player) i g :
  g ∈ p_figures (players !!! i) →
  (i < length players)%nat ∧ g ∈ players ≫= p_figures.
Proof.
  rewrite list_lookup_total_alt.
  destruct (players !! i) as [p|] eqn:Hp; simpl.
  - intros Hg. split; [by eapply lookup_lt_Some|].
    apply list_elem_of_bind. exists p. split; [done|].
    by eapply list_elem_of_lookup_2.
  - intros Hg. by apply elem_of_nil in Hg.
Qed.

Lemma NoDup_player_figures (players : list Player) i :
  NoDup (players ≫= p_figures) → NoDup (p_figures (players !!! i)).
Proof.
  revert i. induction players as [|p players IH]; intros i Hnd.
  - rewrite list_lookup_total_alt. simpl. constructor.
  - rewrite bind_cons in Hnd. apply NoDup_app in Hnd as (Hp & _ & Hrest).
    destruct i as [|i]; [done|]. by apply IH.
Qed.

Lemma NoDup_one_owner (players : list Player) i j g :
  NoDup (players ≫= p_figures) →
  g ∈ p_figures (players !!! i) → g ∈ p_figures (players !!! j) → i = j.
Proof.
  revert i j. induction players as [|p players IH]; intros i j Hnd Hi Hj.
  - rewrite list_lookup_total_alt in Hi. by apply elem_of_nil in Hi.
  - rewrite bind_cons in Hnd. apply NoDup_app in Hnd as (Hp & Hdisj & Hrest).
    destruct i as [|i], j as [|j]; [done| | |].
    + exfalso. apply (Hdisj g Hi).
      by apply (player_figures_allocated players j).
    + exfalso. apply (Hdisj g Hj).
      by apply (player_figures_allocated players i).
    + f_equal. by apply IH.
Qed.

Lemma run_Figure_move_to self position w :
  Figure_move_to self position w
  = (Ok (),
     mkWorld (<[self := mkFigure (f_start_position (w_figures w !!! self))
                          position (f_representation (w_figures w !!! self))]>
                (w_figures w))
       (w_players w) (w_board w)).
Proof. reflexivity. Qed.

Lemma run_Player_delete_figure self figure figures w :
  list_remove figure (p_figures (w_players w !!! self)) = Ok figures →
  Player_delete_figure self figure w
  = (Ok (),
     mkWorld (w_figures w)
       (<[self := mkPlayer (p_representation (w_players w !!! self))
                    (p_home_position (w_players w !!! self)) figures]>
          (w_players w))
       (w_board w)).
Proof.
  intros Hrem. unfold Player_delete_figure, bind, get_player, gets, lift.
  by rewrite Hrem.
Qed.

Lemma run_Board_move_figure w figure x y :
  NoDup (all_figures w) →
  let moved :=
    <[figure := mkFigure (f_start_position (w_figures w !!! figure)) (x, y)
                  (f_representation (w_figures w !!! figure))]> (w_figures w) in
  match head (figures_at w (x, y)) with
  | None =>
      Board_move_figure figure x y w
      = (Ok None, mkWorld moved (w_players w) (w_board w))
  | Some g =>
      ∃ owner l',
        owner ∈ b_players (w_board w)
        ∧ (owner < length (w_players w))%nat
        ∧ g ∈ p_figures (w_players w !!! owner)
        ∧ list_remove g (p_figures (w_players w !!! owner)) = Ok l'
        ∧ Board_move_figure figure x y w
          = (Ok (Some g),
             mkWorld moved
               (<[owner := mkPlayer (p_representation (w_players w !!! owner))
                             (p_home_position (w_players w !!! owner)) l']>
                  (w_players w))
               (w_board w))
  end.
Proof.
  intros Hnd moved. unfold all_figures in Hnd.
  destruct (eval_Board_figure_at x y w) as (r & Hr & Hr1 & Hr2).
  pose proof (reads_run _ w (reads_Board_figure_at x y)) as Hrun.
  rewrite Hr in Hrun. rewrite <- Hr1 in *.
  destruct r as [[g|] r2]; simpl in *.
  - destruct Hr2 as (owner & -> & Howner & Hg).
    destruct (player_figures_allocated _ _ _ Hg) as [Halloc _].
    destruct (list_remove_elem g _ Hg (NoDup_player_figures _ owner Hnd))
      as (l' & Hrem & _).
    exists owner, l'. repeat (split; [done|]).
    unfold Board_move_figure. unfold bind at 1. rewrite Hrun. simpl.
    unfold bind at 1. rewrite (run_Player_delete_figure _ _ _ _ Hrem).
    unfold bind at 1. by rewrite run_Figure_move_to.
  - unfold Board_move_figure. unfold bind at 1. rewrite Hrun. simpl.
    unfold bind at 1. unfold ret at 1.
    unfold bind at 1. by rewrite run_Figure_move_to.
Qed.

(** *** The invariant is kept by every operation *)

Lemma all_figures_insert (players : list Player) i p' :
  (i < length players)%nat →
  ∃ A B, players ≫= p_figures = A ++ p_figures (players !!! i) ++ B
       ∧ <[i := p']> players ≫= p_figures = A ++ p_figures p' ++ B.
Proof.
  intros Hi. destruct (lookup_lt_is_Some_2 players i Hi) as [p Hp].
  rewrite (list_lookup_total_correct _ _ _ Hp).
  exists (take i players ≫= p_figures), (drop (S i) players ≫= p_figures).
  split.
  - rewrite <- (take_drop_middle players i p Hp) at 1.
    by rewrite bind_app, bind_cons.
  - rewrite insert_take_drop by done. by rewrite bind_app, bind_cons.
Qed.

Lemma NoDup_replace_middle (A X X' B : list nat) :
  NoDup (A ++ X ++ B) → NoDup X' →
  (∀ x, x ∈ X' → x ∈ X ∨ x ∉ A ++ X ++ B) →
  NoDup (A ++ X' ++ B).
Proof.
  rewrite !NoDup_app. setoid_rewrite elem_of_app.
  intros (HA & HAXB & HX & HXB & HB) HX' Hsub.
  split; [done|]. split.
  - intros x Hx [Hx'|HxB].
    + destruct (Hsub x Hx') as [HxX|Hno].
      * apply (HAXB x Hx). by left.
      * apply Hno. by left.
    + apply (HAXB x Hx). by right.
  - split; [done|]. split; [|done].
    intros x Hx' HxB. destruct (Hsub x Hx') as [HxX|Hno].
    + by apply (HXB x HxX).
    + apply Hno. right. apply elem_of_app. by right.
Qed.

(** Replacing the figure list of one player by a list of references that
    were its own or are held by nobody. *)
Lemma wf_set_figures w i p' figs' :
  World_wf w → (i < length (w_players w))%nat →
  NoDup (p_figures p') →
  (∀ x, x ∈ p_figures p' →
        (x ∈ p_figures (w_players w !!! i) ∨ x ∉ all_figures w)
        ∧ (x < length figs')%nat) →
  (length (w_figures w) ≤ length figs')%nat →
  World_wf (mkWorld figs' (<[i := p']> (w_players w)) (w_board w)).
Proof.
  intros (Hnd & Hall & Hpl) Hi Hnd' Hnew Hlen.
  unfold World_wf, all_figures in *. simpl.
  destruct (all_figures_insert (w_players w) i p' Hi) as (A & B & HE & ->).
  rewrite HE in *. split; [|split].
  - apply (NoDup_replace_middle A (p_figures (w_players w !!! i))); [done..|].
    intros x Hx. by apply Hnew.
  - rewrite !Forall_app in *. destruct Hall as (HA & _ & HB).
    split; [|split].
    + eapply Forall_impl; [exact HA|]. simpl. lia.
    + apply Forall_forall. intros x Hx. by apply Hnew.
    + eapply Forall_impl; [exact HB|]. simpl. lia.
  - by rewrite length_insert.
Qed.

Lemma wf_set_positions w figs' :
  World_wf w → length figs' = length (w_figures w) →
  World_wf (mkWorld figs' (w_players w) (w_board w)).
Proof.
  intros (Hnd & Hall & Hpl) Hlen. unfold World_wf, all_figures in *. simpl.
  by rewrite Hlen.
Qed.

Lemma wf_Player_add_figure w self :
  World_wf w → (self < length (w_players w))%nat →
  World_wf (exec (Player_add_figure self) w).
Proof.
  intros Hwf Hself.
  change (exec (Player_add_figure self) w) with
    (mkWorld
       (w_figures w ++ [mkFigure (p_home_position (w_players w !!! self))
                          (p_home_position (w_players w !!! self))
                          (p_representation (w_players w !!! self))])
       (<[self := mkPlayer (p_representation (w_players w !!! self))
                    (p_home_position (w_players w !!! self))
                    (p_figures (w_players w !!! self) ++ [length (w_figures w)])]>
          (w_players w))
       (w_board w)).
  pose proof Hwf as (Hnd & Hall & _).
  assert (length (w_figures w) ∉ all_figures w) as Hfresh.
  { intros Hin. rewrite Forall_forall in Hall. apply Hall in Hin. lia. }
  apply wf_set_figures; [done|done|..]; simpl.
  - apply NoDup_app. split; [by apply NoDup_player_figures|].
    split; [|apply NoDup_singleton].
    intros x Hx ->%list_elem_of_singleton. apply Hfresh.
    by apply (player_figures_allocated _ self).
  - intros x [Hx| ->%list_elem_of_singleton]%elem_of_app.
    + split; [by left|]. rewrite length_app. simpl.
      apply player_figures_allocated in Hx as [_ Hx].
      rewrite Forall_forall in Hall. apply Hall in Hx. lia.
    + split; [by right|]. rewrite length_app. simpl. lia.
  - rewrite length_app. simpl. lia.
Qed.

Lemma wf_Board_move_figure w figure x y :
  World_wf w → World_wf (exec (Board_move_figure figure x y) w).
Proof.
  intros Hwf. pose proof Hwf as (Hnd & Hall & _).
  pose proof (run_Board_move_figure w figure x y Hnd) as Hmove.
  cbv zeta in Hmove. unfold exec.
  destruct (head (figures_at w (x, y))) as [g|].
  - destruct Hmove as (owner & l' & _ & Halloc & Hg & Hrem & ->). simpl.
    destruct (list_remove_elem g _ Hg (NoDup_player_figures _ owner Hnd))
      as (l'' & Hrem' & Hgone & Hsame & Hnd' & _).
    rewrite Hrem in Hrem'. injection Hrem' as <-.
    apply wf_set_figures; [done|done|done|..]; simpl.
    + intros h Hh.
      assert (h ∈ p_figures (w_players w !!! owner)) as Hh'.
      { apply Hsame; [|done]. by intros ->. }
      split; [by left|]. rewrite length_insert.
      apply player_figures_allocated in Hh' as [_ Hh'].
      rewrite Forall_forall in Hall. by apply Hall.
    + by rewrite length_insert.
  - rewrite Hmove. simpl. apply wf_set_positions; [done|].
    by rewrite length_insert.
Qed.

Lemma run_Board_add_player representation w :
  match py_index (b_starts (w_board w))
          (Z.of_nat (length (b_players (w_board w)))) with
  | Raise e => Board_add_player representation w = (Raise e, w)
  | Ok home_pos =>
      let r := match representation with
               | Some r => r
               | None => String (Ascii.ascii_of_nat
                                   (length (b_players (w_board w)) + 65))
                           EmptyString
               end in
      let w1 := mkWorld (w_figures w) (w_players w ++ [mkPlayer r home_pos []])
                  (w_board w) in
      let w2 := exec (Player_add_figure (length (w_players w))) w1 in
      Board_add_player representation w
      = (Ok (length (w_players w)),
         mkWorld (w_figures w2) (w_players w2)
           (mkBoard (b_n (w_board w)) (b_board (w_board w))
              (b_players (w_board w) ++ [length (w_players w)])
              (b_starts (w_board w))))
  end.
Proof.
  unfold Board_add_player, bind, get_board, gets, lift.
  by destruct (py_index _ _).
Qed.

Lemma wf_Board_add_player w representation :
  World_wf w → World_wf (exec (Board_add_player representation) w).
Proof.
  intros Hwf. pose proof (run_Board_add_player representation w) as Hrun.
  unfold exec at 1.
  destruct (py_index _ _) as [home_pos|e]; [|by rewrite Hrun].
  cbv zeta in Hrun. rewrite Hrun. clear Hrun. cbn [snd].
  set (r := match representation with Some r => r | None => _ end).
  set (w1 := mkWorld (w_figures w) (w_players w ++ [mkPlayer r home_pos []])
               (w_board w)).
  assert (World_wf w1) as Hwf1.
  { destruct Hwf as (Hnd & Hall & Hpl). unfold World_wf, all_figures in *.
    subst w1. simpl. rewrite bind_app, bind_singleton. simpl.
    rewrite app_nil_r. split; [done|]. split; [done|].
    eapply Forall_impl; [exact Hpl|]. simpl. intros. rewrite length_app.
    simpl. lia. }
  assert (length (w_players w) < length (w_players w1))%nat as Hnew.
  { subst w1. simpl. rewrite length_app. simpl. lia. }
  destruct (wf_Player_add_figure w1 _ Hwf1 Hnew) as (Hnd & Hall & Hpl).
  split; [done|]. split; [done|]. simpl in *.
  apply Forall_app. split; [done|]. apply Forall_singleton.
  rewrite length_insert. done.
Qed.

Lemma Board_add_player_board w representation :
  b_n (w_board (exec (Board_add_player representation) w)) = b_n (w_board w)
  ∧ b_board (w_board (exec (Board_add_player representation) w))
    = b_board (w_board w)
  ∧ b_starts (w_board (exec (Board_add_player representation) w))
    = b_starts (w_board w).
Proof.
  pose proof (run_Board_add_player representation w) as Hrun.
  unfold exec at 1 2 3.
  destruct (py_index _ _) as [home_pos|e]; by rewrite Hrun.
Qed.

(** Every world the program builds satisfies the invariant, and its board
    is as the constructor left it. *)
Lemma reachable_wf w : reachable w → World_wf w ∧ Board_built (w_board w).
Proof.
  induction 1 as [n board Hinit|w r _ [IH Hb]|w pl _ [IH Hb] Hpl
                 |w figure x y _ [IH Hb] Hfig].
  - split; [|by apply Board_init_built in Hinit as [_ ?]].
    assert (b_players board = []) as Hnone.
    { unfold Board_init in Hinit. case_decide; [|done].
      by injection Hinit as <-. }
    repeat split; simpl; try constructor. rewrite Hnone. constructor.
  - split; [by apply wf_Board_add_player|].
    destruct (Board_add_player_board w r) as (Hn & Hgrid & Hstarts).
    destruct Hb as [Hb1 Hb2]. split.
    + rewrite Hgrid, Hb1. by apply build_board_size.
    + by rewrite Hstarts, Hn.
  - split; [|done]. apply wf_Player_add_figure; [done|].
    destruct IH as (_ & _ & Hall). rewrite Forall_forall in Hall.
    by apply Hall.
  - split; [by apply wf_Board_move_figure|].
    destruct IH as (Hnd & _).
    pose proof (run_Board_move_figure w figure x y Hnd) as Hmove.
    cbv zeta in Hmove. unfold exec.
    destruct (head (figures_at w (x, y))) as [g|].
    + by destruct Hmove as (owner & l' & _ & _ & _ & _ & ->).
    + by rewrite Hmove.
Qed.



(** * Further properties of the code *)

(** ** The shape of the grid *)

Section grid.
Context (b : Board) (m : Z).
Hypothesis Hb : Board_built b.
Hypothesis Hn : b_n b = 2 * m + 1.
Hypothesis Hm : 2 ≤ m.

Ltac cell_facts :=
  repeat match goal with
    | H : Board_box_at _ _ _ = HOME |- _ => rewrite (box_at_HOME b m Hn Hm) in H
    | H : Board_box_at _ _ _ ≠ HOME |- _ => rewrite (box_at_HOME b m Hn Hm) in H
    | H : Board_box_at _ _ _ = PATH |- _ => rewrite (box_at_PATH b m Hn Hm) in H
    | H : Board_box_at _ _ _ ≠ PATH |- _ => rewrite (box_at_PATH b m Hn Hm) in H
    end.

Lemma box_at_WALL x y : Board_box_at b x y = WALL ↔ x = m ∧ y = m.
Proof using Hn Hm.
  rewrite (box_at_m b m Hn Hm).
  repeat (case_bool_decide; simpl); split; (done || lia).
Qed.

Lemma lanes_in_range x y :
  0 ≤ x ≤ 2 * m → 0 ≤ y ≤ 2 * m →
  Board_box_at b x y = HOME ↔
  x = m ∧ (1 ≤ y ≤ m - 1 ∨ m + 1 ≤ y ≤ 2 * m - 1)
  ∨ y = m ∧ (1 ≤ x ≤ m - 1 ∨ m + 1 ≤ x ≤ 2 * m - 1).
Proof using Hn Hm. intros Hx Hy. rewrite (box_at_HOME b m Hn Hm). lia. Qed.

Lemma box_at_off_grid x y :
  ¬ (0 ≤ x ≤ 2 * m ∧ 0 ≤ y ≤ 2 * m) →
  (x = m ∨ y = m → Board_box_at b x y = HOME)
  ∧ (x ≠ m → y ≠ m →
     Board_box_at b x y
     = if bool_decide (m - 1 ≤ x ≤ m + 1 ∨ m - 1 ≤ y ≤ m + 1) then PATH else EMPTY).
Proof using Hn Hm.
  intros Hout. split.
  - intros Haxis. apply (box_at_HOME b m Hn Hm). lia.
  - intros Hx Hy. rewrite (box_at_m b m Hn Hm).
    repeat (case_bool_decide; simpl; try lia); done.
Qed.

(** The advance from a cell of the grid: which result, and where. *)
Lemma next_position_in_board x y :
  in_board b (x, y) →
  ∃ r, Board_next_position b x y = Ok r
     ∧ (Board_box_at b x y = PATH → is_Some r)
     ∧ ∀ q, r = Some q →
         in_board b q
         ∧ Z.abs (q.1 - x) + Z.abs (q.2 - y) = 1
         ∧ (Board_box_at b x y = PATH → Board_box_at b q.1 q.2 = PATH)
         ∧ (Board_box_at b x y = HOME → Board_box_at b q.1 q.2 = HOME).
Proof using Hb Hn Hm.
  intros Hxy. rewrite Board_next_position_built by done.
  destruct Hxy as [Hx Hy]. simpl in Hx, Hy.
  cbv zeta. unfold posible_moves, in_board. rewrite (half_n b m Hn).
  replace (b_n b - 1) with (2 * m) by lia.
  repeat (case_bool_decide; simpl; try lia);
    rewrite ?filter_cons, ?filter_nil; simpl;
    repeat (case_decide; simpl);
    (eexists; split; [reflexivity|]);
    (split; [intros Hp; cell_facts; first [by eexists | exfalso; lia]|]);
    intros q [= <-]; simpl;
    (split; [lia|]); (split; [lia|]);
    (split; intros Hp; cell_facts;
       rewrite ?(box_at_PATH b m Hn Hm), ?(box_at_HOME b m Hn Hm); lia).
Qed.
End grid.

Lemma odd_size (b : Board) :
  Z.Odd (b_n b) → 5 ≤ b_n b →
  b_n b = 2 * (b_n b / 2) + 1 ∧ 2 ≤ b_n b / 2.
Proof. intros [k Hk] H5. zlia. Qed.

(** X1: on the grid of a board of odd size N >= 5 the only WALL cell is
    the centre, and the HOME cells are the four lanes on the axes between
    the centre and the edge; each lane has exactly [max_figures] cells. *)
Theorem X1_lanes_and_wall (b : Board) (x y : Z) :
  Z.Odd (b_n b) → 5 ≤ b_n b →
  0 ≤ x ≤ b_n b - 1 → 0 ≤ y ≤ b_n b - 1 →
  let m := b_n b / 2 in
  let k := Board_max_figures b in
  (Board_box_at b x y = WALL ↔ x = m ∧ y = m)
  ∧ (Board_box_at b x y = HOME ↔
     x = m ∧ (1 ≤ y ≤ k ∨ b_n b - 1 - k ≤ y ≤ b_n b - 2)
     ∨ y = m ∧ (1 ≤ x ≤ k ∨ b_n b - 1 - k ≤ x ≤ b_n b - 2))
  ∧ 1 ≤ k.
Proof.
  intros Hodd H5 Hx Hy m k.
  destruct (odd_size b Hodd H5) as [Hn Hm]. fold m in Hn, Hm.
  assert (k = m - 1) as -> by (unfold k, Board_max_figures; zlia).
  split; [by apply box_at_WALL|]. split; [|lia].
  rewrite (lanes_in_range b m Hn Hm) by lia. lia.
Qed.

(** The top lane of the board of size 7. *)
Lemma X1_lanes_and_wall_witness :
  let b := board_of 7 in
  let m := b_n b / 2 in
  let k := Board_max_figures b in
  (Board_box_at b 3 1 = WALL ↔ 3 = m ∧ 1 = m)
  ∧ (Board_box_at b 3 1 = HOME ↔
     3 = m ∧ (1 ≤ 1 ≤ k ∨ b_n b - 1 - k ≤ 1 ≤ b_n b - 2)
     ∨ 1 = m ∧ (1 ≤ 3 ≤ k ∨ b_n b - 1 - k ≤ 3 ≤ b_n b - 2))
  ∧ 1 ≤ k.
Proof.
  apply (X1_lanes_and_wall (board_of 7) 3 1).
  - exists 3. reflexivity.
  - vm_compute. discriminate.
  - vm_compute. split; discriminate.
  - vm_compute. split; discriminate.
Defined.

(** X2: [Board.box_at] checks no bounds.  Off the grid every coordinate on
    one of the two axis lines classifies as HOME, and every other one as
    PATH inside the three-cell band around an axis and EMPTY outside. *)
Theorem X2_box_at_off_grid (b : Board) (x y : Z) :
  Z.Odd (b_n b) → 5 ≤ b_n b →
  ¬ (0 ≤ x ≤ b_n b - 1 ∧ 0 ≤ y ≤ b_n b - 1) →
  let m := b_n b / 2 in
  (x = m ∨ y = m → Board_box_at b x y = HOME)
  ∧ (x ≠ m → y ≠ m →
     Board_box_at b x y
     = if bool_decide (m - 1 ≤ x ≤ m + 1 ∨ m - 1 ≤ y ≤ m + 1)
       then PATH else EMPTY).
Proof.
  intros Hodd H5 Hout m.
  destruct (odd_size b Hodd H5) as [Hn Hm]. fold m in Hn, Hm.
  apply (box_at_off_grid b m Hn Hm). lia.
Qed.

(** Above the top edge of the board of size 7. *)
Lemma X2_box_at_off_grid_witness :
  let b := board_of 7 in
  let m := b_n b / 2 in
  (3 = m ∨ -1 = m → Board_box_at b 3 (-1) = HOME)
  ∧ (3 ≠ m → -1 ≠ m →
     Board_box_at b 3 (-1)
     = if bool_decide (m - 1 ≤ 3 ≤ m + 1 ∨ m - 1 ≤ -1 ≤ m + 1)
       then PATH else EMPTY).
Proof.
  apply (X2_box_at_off_grid (board_of 7) 3 (-1)).
  - exists 3. reflexivity.
  - vm_compute. discriminate.
  - vm_compute. intros [_ [H _]]. by apply H.
Defined.

(** X3: the right lane is a dead end.  On a HOME cell right of the centre
    and not next to it the advance is None, while on the mirrored cell of
    the left lane it is the next cell towards the centre. *)
Theorem X3_right_lane_stuck (b : Board) (x : Z) :
  Board_built b → Z.Odd (b_n b) → 5 ≤ b_n b →
  let m := b_n b / 2 in
  m + 1 < x < b_n b - 1 →
  Board_box_at b x m = HOME
  ∧ Board_next_position b x m = Ok None
  ∧ Board_box_at b (b_n b - 1 - x) m = HOME
  ∧ Board_next_position b (b_n b - 1 - x) m = Ok (Some (b_n b - x, m)).
Proof.
  intros Hb Hodd H5 m Hx.
  destruct (odd_size b Hodd H5) as [Hn Hm]. fold m in Hn, Hm.
  destruct (right_lane_no_advance b m Hb Hn Hm x) as [Hhome Hnone]; [lia|].
  split; [done|]. split; [done|].
  assert (Board_box_at b (b_n b - 1 - x) m = HOME) as Hleft
    by (apply (box_at_HOME b m Hn Hm); lia).
  split; [done|].
  destruct (home_lane_advance b m Hb Hn Hm (b_n b - 1 - x) m)
    as (_ & _ & _ & Hstep); [split; simpl; lia|done|].
  rewrite Hstep by lia. apply Ok_Some_pair; lia.
Qed.

(** The cells (5, 3) and (1, 3) of the board of size 7. *)
Lemma X3_right_lane_stuck_witness :
  let b := board_of 7 in
  let m := b_n b / 2 in
  Board_box_at b 5 m = HOME
  ∧ Board_next_position b 5 m = Ok None
  ∧ Board_box_at b (b_n b - 1 - 5) m = HOME
  ∧ Board_next_position b (b_n b - 1 - 5) m = Ok (Some (b_n b - 5, m)).
Proof.
  apply (X3_right_lane_stuck (board_of 7) 5).
  - split; reflexivity.
  - exists 3. reflexivity.
  - vm_compute. discriminate.
  - vm_compute. split; reflexivity.
Defined.

(** X4: on the grid of a board of odd size N >= 5 [Board.next_position]
    raises nothing; a cell it returns is on the grid and a horizontal or
    vertical neighbour of the argument; from a PATH cell it always returns
    a PATH cell, and from a HOME cell a HOME cell or None. *)
Theorem X4_next_position_safe (b : Board) (x y : Z) :
  Board_built b → Z.Odd (b_n b) → 5 ≤ b_n b →
  0 ≤ x ≤ b_n b - 1 → 0 ≤ y ≤ b_n b - 1 →
  ∃ r, Board_next_position b x y = Ok r
     ∧ (Board_box_at b x y = PATH → is_Some r)
     ∧ ∀ q, r = Some q →
         in_board b q
         ∧ Z.abs (q.1 - x) + Z.abs (q.2 - y) = 1
         ∧ (Board_box_at b x y = PATH → Board_box_at b q.1 q.2 = PATH)
         ∧ (Board_box_at b x y = HOME → Board_box_at b q.1 q.2 = HOME).
Proof.
  intros Hb Hodd H5 Hx Hy.
  destruct (odd_size b Hodd H5) as [Hn Hm].
  by apply (next_position_in_board b (b_n b / 2)).
Qed.

(** The first entry coordinate of the board of size 7. *)
Lemma X4_next_position_safe_witness :
  ∃ r, Board_next_position (board_of 7) 4 0 = Ok r
     ∧ (Board_box_at (board_of 7) 4 0 = PATH → is_Some r)
     ∧ ∀ q, r = Some q →
         in_board (board_of 7) q
         ∧ Z.abs (q.1 - 4) + Z.abs (q.2 - 0) = 1
         ∧ (Board_box_at (board_of 7) 4 0 = PATH
            → Board_box_at (board_of 7) q.1 q.2 = PATH)
         ∧ (Board_box_at (board_of 7) 4 0 = HOME
            → Board_box_at (board_of 7) q.1 q.2 = HOME).
Proof.
  apply (X4_next_position_safe (board_of 7) 4 0).
  - split; reflexivity.
  - exists 3. reflexivity.
  - vm_compute. discriminate.
  - vm_compute. split; discriminate.
  - vm_compute. split; discriminate.
Defined.

(** ** The set-up of [simulacia] *)

Lemma simulacia_start_world n :
  Z.Odd n →
  simulacia_start n
  = Ok (mkWorld
          [mkFigure (n / 2 + 1, 0) (n / 2 + 1, 0) "A";
           mkFigure (n / 2 - 1, n - 1) (n / 2 - 1, n - 1) "B"]
          [mkPlayer "A" (n / 2 + 1, 0) [0%nat];
           mkPlayer "B" (n / 2 - 1, n - 1) [1%nat]]
          (mkBoard n (b_board (_build_board (mkBoard n [] [] [])))
             [0%nat; 1%nat] [(n / 2 + 1, 0); (n / 2 - 1, n - 1)])).
Proof.
  intros [k Hk]. unfold simulacia_start, gensachovnicu, Board_init.
  rewrite decide_True by zlia. reflexivity.
Qed.

Lemma game_of_reachable n : Z.Odd n → reachable (game_of n).
Proof.
  intros Hodd. unfold game_of. rewrite simulacia_start_world by done.
  assert (∃ board, Board_init n = Ok board) as [board Hboard].
  { unfold Board_init. destruct Hodd as [k Hk].
    rewrite decide_True by zlia. by eexists. }
  pose proof (reachable_add_player _ (Some "B")
                (reachable_add_player _ (Some "A")
                   (reachable_init n board Hboard))) as Hr.
  unfold Board_init in Hboard. destruct Hodd as [k Hk].
  rewrite decide_True in Hboard by zlia. injection Hboard as <-.
  exact Hr.
Qed.

(** ** Reads off the grid, entries of the lanes, and the players' lists *)

Lemma py_index_out {A} (l : list A) i :
  ¬ (- Z.of_nat (length l) ≤ i < Z.of_nat (length l)) →
  py_index l i = Raise IndexError.
Proof.
  intros Hi. unfold py_index.
  rewrite decide_False by lia. by rewrite decide_False by lia.
Qed.

Lemma built_rows b i row :
  Board_built b → b_board b !! i = Some row →
  length (b_board b) = Z.to_nat (b_n b) ∧ length row = Z.to_nat (b_n b).
Proof.
  intros [Hb _] Hrow. rewrite Hb in *. simpl in *.
  unfold range in *. rewrite length_fmap, length_seqZ. split; [done|].
  rewrite list_lookup_fmap in Hrow.
  destruct (seqZ 0 (b_n b) !! i); simplify_eq/=.
  by rewrite length_fmap, length_seqZ.
Qed.

Lemma py_index_Ok {A} (l : list A) i a :
  py_index l i = Ok a → ∃ j, l !! j = Some a.
Proof.
  unfold py_index. repeat case_decide; try done.
  - destruct (l !! Z.to_nat i) eqn:E; [|done]. intros [= <-]. eauto.
  - destruct (l !! Z.to_nat _) eqn:E; [|done]. intros [= <-]. eauto.
Qed.

Lemma board_get_out b i j :
  Board_built b →
  ¬ (- b_n b ≤ i < b_n b ∧ - b_n b ≤ j < b_n b) →
  board_get b i j = Raise IndexError.
Proof.
  intros Hb Hout. unfold board_get.
  destruct (py_index (b_board b) i) as [row|e] eqn:Hrow.
  - destruct (py_index_Ok _ _ _ Hrow) as [k Hk].
    destruct (built_rows b k row Hb Hk) as [Hlen Hlenrow].
    assert (- b_n b ≤ i < b_n b) as Hi.
    { unfold py_index in Hrow. rewrite Hlen in Hrow.
      repeat case_decide; try done; lia. }
    apply py_index_out. lia.
  - unfold py_index in Hrow.
    repeat case_decide; try done;
      repeat (destruct (b_board b !! _); try done); congruence.
Qed.

(** X5: off the axis lines [Board.next_position] reads the grid at its
    argument, with Python's list indexing: a coordinate outside the range
    -N <= x, y < N raises IndexError. *)
Theorem X5_next_position_IndexError (b : Board) (x y : Z) :
  Board_built b →
  x ≠ b_n b / 2 → y ≠ b_n b / 2 →
  ¬ (- b_n b ≤ x < b_n b ∧ - b_n b ≤ y < b_n b) →
  Board_next_position b x y = Raise IndexError.
Proof.
  intros Hb Hx Hy Hout. unfold Board_next_position. cbv zeta.
  rewrite (bool_decide_eq_false_2 (x = _)), (bool_decide_eq_false_2 (y = _))
    by done.
  simpl. by rewrite (board_get_out b x y Hb Hout).
Qed.

(** One column right of the board of size 7. *)
Lemma X5_next_position_IndexError_witness :
  Board_next_position (board_of 7) 7 0 = Raise IndexError.
Proof.
  apply (X5_next_position_IndexError (board_of 7) 7 0).
  - split; reflexivity.
  - vm_compute. discriminate.
  - vm_compute. discriminate.
  - change (b_n (board_of 7)) with 7. lia.
Defined.

(** X6: [Board.home_position] is None exactly off the four edges, tests
    the edges in the order left, right, top, bottom (so a corner gives
    the left or the right lane), and every cell it returns is the HOME
    cell of the grid at distance N // 2 - 1 from the centre. *)
Theorem X6_home_position_edge (b : Board) (x y : Z) :
  Z.Odd (b_n b) → 5 ≤ b_n b →
  let m := b_n b / 2 in
  (Board_home_position b x y = None ↔
   x ≠ 0 ∧ x ≠ b_n b - 1 ∧ y ≠ 0 ∧ y ≠ b_n b - 1)
  ∧ (x = 0 → Board_home_position b x y = Some (1, m))
  ∧ (x = b_n b - 1 → Board_home_position b x y = Some (b_n b - 2, m))
  ∧ (∀ q, Board_home_position b x y = Some q →
          in_board b q ∧ Board_box_at b q.1 q.2 = HOME
          ∧ Z.abs (q.1 - m) + Z.abs (q.2 - m) = m - 1).
Proof.
  intros Hodd H5 m.
  destruct (odd_size b Hodd H5) as [Hn Hm]. fold m in Hn, Hm.
  unfold Board_home_position. fold m.
  split; [|split; [|split]].
  - repeat case_bool_decide; split; intros; try done; lia.
  - intros ->. by rewrite bool_decide_eq_true_2.
  - intros ->. rewrite bool_decide_eq_false_2 by lia.
    by rewrite bool_decide_eq_true_2.
  - intros q. repeat case_bool_decide; intros [= <-]; simpl;
      (split; [unfold in_board; simpl; lia|]);
      (split; [apply (box_at_HOME b m Hn Hm); lia|lia]).
Qed.

(** The top left corner of the board of size 7. *)
Lemma X6_home_position_edge_witness :
  let b := board_of 7 in
  let m := b_n b / 2 in
  (Board_home_position b 0 0 = None ↔
   0 ≠ 0 ∧ 0 ≠ b_n b - 1 ∧ 0 ≠ 0 ∧ 0 ≠ b_n b - 1)
  ∧ (0 = 0 → Board_home_position b 0 0 = Some (1, m))
  ∧ (0 = b_n b - 1 → Board_home_position b 0 0 = Some (b_n b - 2, m))
  ∧ (∀ q, Board_home_position b 0 0 = Some q →
          in_board b q ∧ Board_box_at b q.1 q.2 = HOME
          ∧ Z.abs (q.1 - m) + Z.abs (q.2 - m) = m - 1).
Proof.
  apply (X6_home_position_edge (board_of 7) 0 0).
  - exists 3. reflexivity.
  - vm_compute. discriminate.
Defined.

Lemma list_remove_absent g l : g ∉ l → list_remove g l = Raise ValueError.
Proof.
  induction l as [|a l IH]; [done|]. intros Hg. simpl.
  apply not_elem_of_cons in Hg as [Hne Hg].
  rewrite decide_False by done. by rewrite IH.
Qed.

Lemma list_remove_first g l1 l2 :
  g ∉ l1 → list_remove g (l1 ++ g :: l2) = Ok (l1 ++ l2).
Proof.
  induction l1 as [|a l1 IH]; intros Hg; simpl.
  - by rewrite decide_True.
  - apply not_elem_of_cons in Hg as [Hne Hg].
    rewrite decide_False by done. by rewrite IH.
Qed.

(** X8: [Player.delete_figure] raises ValueError, with nothing changed,
    for a figure the player does not hold, and otherwise removes the
    first occurrence from the player's list and changes nothing else. *)
Theorem X8_delete_figure (w : World) (self figure : nat) :
  let figures := p_figures (w_players w !!! self) in
  (figure ∉ figures →
   Player_delete_figure self figure w = (Raise ValueError, w))
  ∧ (∀ l1 l2, figures = l1 ++ figure :: l2 → figure ∉ l1 →
       let w' := exec (Player_delete_figure self figure) w in
       eval (Player_delete_figure self figure) w = Ok ()
       ∧ p_figures (w_players w' !!! self) = l1 ++ l2
       ∧ p_home_position (w_players w' !!! self)
         = p_home_position (w_players w !!! self)
       ∧ (∀ pl, pl ≠ self → w_players w' !!! pl = w_players w !!! pl)
       ∧ w_figures w' = w_figures w
       ∧ w_board w' = w_board w).
Proof.
  intros figures. split.
  - intros Hg. unfold Player_delete_figure, bind, get_player, gets, lift.
    fold figures. by rewrite (list_remove_absent _ _ Hg).
  - intros l1 l2 Hsplit Hg w'.
    assert (list_remove figure (p_figures (w_players w !!! self))
            = Ok (l1 ++ l2)) as Hrem.
    { fold figures. rewrite Hsplit. by apply list_remove_first. }
    assert (self < length (w_players w))%nat as Hself.
    { apply (player_figures_allocated _ _ figure). fold figures.
      rewrite Hsplit. apply elem_of_app. right. by apply elem_of_cons; left. }
    subst w'. unfold exec, eval.
    rewrite (run_Player_delete_figure _ _ _ _ Hrem). simpl.
    rewrite list_lookup_total_insert_eq by done. simpl.
    repeat split. intros pl Hpl.
    by apply list_lookup_total_insert_ne.
Qed.

Lemma run_Player_add_figure self w :
  Player_add_figure self w
  = (Ok (),
     mkWorld
       (w_figures w ++ [mkFigure (p_home_position (w_players w !!! self))
                          (p_home_position (w_players w !!! self))
                          (p_representation (w_players w !!! self))])
       (<[self := mkPlayer (p_representation (w_players w !!! self))
                    (p_home_position (w_players w !!! self))
                    (p_figures (w_players w !!! self) ++ [length (w_figures w)])]>
          (w_players w))
       (w_board w)).
Proof. reflexivity. Qed.

Lemma eval_Player_has_finished self w :
  eval (Player_has_finished self) w
  = Ok (bool_decide
          (Z.of_nat (length (p_figures (w_players w !!! self)))
           = Board_max_figures (w_board w))
        && bool_decide
             (Forall (λ f, Board_box_at (w_board w)
                             (f_position (w_figures w !!! f)).1
                             (f_position (w_figures w !!! f)).2 = HOME)
                (p_figures (w_players w !!! self)))).
Proof.
  unfold Player_has_finished.
  rewrite eval_bind by auto with reads.
  change (eval (get_player self) w) with (Ok (w_players w !!! self)).
  cbv beta iota. rewrite eval_bind by auto with reads.
  change (eval get_board w) with (Ok (w_board w)). cbv beta iota.
  case_bool_decide; [|done]. simpl.
  unfold Player_figures_finished. rewrite eval_bind by auto with reads.
  change (eval (get_player self) w) with (Ok (w_players w !!! self)).
  cbv beta iota. apply eval_Player_figures_finished_loop.
Qed.

(** X7: [Player.add_figure] appends one fresh figure, placed on the
    player's entry coordinate with the player's representation, and
    changes no other figure, no other player and not the board; when the
    entry coordinate is not HOME the player has not finished after it. *)
Theorem X7_add_figure (w : World) (self : nat) :
  (self < length (w_players w))%nat →
  let w' := exec (Player_add_figure self) w in
  let p := w_players w !!! self in
  let new := length (w_figures w) in
  eval (Player_add_figure self) w = Ok ()
  ∧ p_figures (w_players w' !!! self) = p_figures p ++ [new]
  ∧ w_figures w' !!! new
    = mkFigure (p_home_position p) (p_home_position p) (p_representation p)
  ∧ (∀ g, (g < new)%nat → w_figures w' !!! g = w_figures w !!! g)
  ∧ (∀ pl, pl ≠ self → w_players w' !!! pl = w_players w !!! pl)
  ∧ w_board w' = w_board w
  ∧ (Board_box_at (w_board w) (p_home_position p).1 (p_home_position p).2 ≠ HOME →
     eval (Player_has_finished self) w' = Ok false).
Proof.
  intros Hself w' p new. subst w'. unfold exec, eval at 1.
  rewrite run_Player_add_figure. simpl. fold p new.
  rewrite list_lookup_total_insert_eq by done. simpl.
  assert (∀ v : Figure, (w_figures w ++ [v]) !!! new = v) as Hnew.
  { intros v. by rewrite (list_lookup_total_middle _ [] v new). }
  split; [done|]. split; [done|]. split; [apply Hnew|].
  split; [by intros g Hg; apply lookup_total_app_l|].
  split; [by intros pl Hpl; apply list_lookup_total_insert_ne|].
  split; [done|]. intros Hhome.
  rewrite eval_Player_has_finished. simpl.
  rewrite list_lookup_total_insert_eq by done. simpl.
  rewrite (bool_decide_eq_false_2 (Forall _ _)); [by rewrite andb_false_r|].
  rewrite Forall_app, Forall_singleton, Hnew. simpl. tauto.
Qed.

(** Player A after the set-up of the board of size 7. *)
Lemma X7_add_figure_witness :
  let w := game_of 7 in
  let self := 0%nat in
  let w' := exec (Player_add_figure self) w in
  let p := w_players w !!! self in
  let new := length (w_figures w) in
  eval (Player_add_figure self) w = Ok ()
  ∧ p_figures (w_players w' !!! self) = p_figures p ++ [new]
  ∧ w_figures w' !!! new
    = mkFigure (p_home_position p) (p_home_position p) (p_representation p)
  ∧ (∀ g, (g < new)%nat → w_figures w' !!! g = w_figures w !!! g)
  ∧ (∀ pl, pl ≠ self → w_players w' !!! pl = w_players w !!! pl)
  ∧ w_board w' = w_board w
  ∧ (Board_box_at (w_board w) (p_home_position p).1 (p_home_position p).2 ≠ HOME →
     eval (Player_has_finished self) w' = Ok false).
Proof.
  apply (X7_add_figure (game_of 7) 0).
  vm_compute. lia.
Defined.

Lemma py_index_nat {A} (l : list A) (k : nat) :
  py_index l (Z.of_nat k)
  = match l !! k with Some a => Ok a | None => Raise IndexError end.
Proof.
  unfold py_index. case_decide as Hk.
  - by rewrite Nat2Z.id.
  - rewrite decide_False by lia.
    rewrite lookup_ge_None_2; [done|lia].
Qed.

Lemma add_player_effect (w : World) (representation : option string) :
  Board_built (w_board w) →
  let k := length (b_players (w_board w)) in
  let w' := exec (Board_add_player representation) w in
  let name := match representation with
              | Some r => r
              | None => if decide (k = 0%nat) then "A" else "B"
              end in
  let new_player := length (w_players w) in
  let new_figure := length (w_figures w) in
  ((2 ≤ k)%nat → Board_add_player representation w = (Raise IndexError, w))
  ∧ ((k < 2)%nat →
     ∃ home, b_starts (w_board w) !! k = Some home
       ∧ eval (Board_add_player representation) w = Ok new_player
       ∧ w_players w' !!! new_player = mkPlayer name home [new_figure]
       ∧ w_figures w' !!! new_figure = mkFigure home home name
       ∧ b_players (w_board w') = b_players (w_board w) ++ [new_player]
       ∧ b_n (w_board w') = b_n (w_board w)
       ∧ b_board (w_board w') = b_board (w_board w)
       ∧ b_starts (w_board w') = b_starts (w_board w)
       ∧ (∀ pl, (pl < new_player)%nat → w_players w' !!! pl = w_players w !!! pl)
       ∧ (∀ g, (g < new_figure)%nat → w_figures w' !!! g = w_figures w !!! g)).
Proof.
  intros [_ Hstarts] k w' name new_player new_figure.
  pose proof (run_Board_add_player representation w) as Hrun.
  rewrite py_index_nat in Hrun. fold k in Hrun. rewrite Hstarts in *.
  split.
  - intros Hk. rewrite lookup_ge_None_2 in Hrun by (simpl; lia). done.
  - intros Hk.
    assert (∃ home, ([(b_n (w_board w) / 2 + 1, 0);
                      (b_n (w_board w) / 2 - 1, b_n (w_board w) - 1)]
                     : list coord) !! k
                    = Some home) as [home Hhome].
    { destruct k as [|[|k]]; [by eexists..|lia]. }
    rewrite Hhome in Hrun. cbv zeta in Hrun.
    exists home. split; [done|].
    subst w'. unfold exec, eval. rewrite Hrun. clear Hrun. simpl.
    assert (match representation with
            | Some r => r
            | None => String (Ascii.ascii_of_nat (k + 65)) ""
            end = name) as ->.
    { subst name. destruct representation; [done|].
      destruct k as [|[|k]]; [done..|lia]. }
    fold new_player new_figure.
    rewrite (list_lookup_total_middle _ [] _ new_player) by done. simpl.
    assert (new_player < length (w_players w ++ [mkPlayer name home []]))%nat
      as Hlen by (rewrite length_app; simpl; lia).
    rewrite list_lookup_total_insert_eq by done.
    rewrite (list_lookup_total_middle _ [] _ new_figure) by done.
    repeat (split; [done|]). split.
    + intros pl Hpl. rewrite list_lookup_total_insert_ne by lia.
      by apply lookup_total_app_l.
    + intros g Hg. by apply lookup_total_app_l.
Qed.

(** X9: [Board.add_player] on a board that has its two players raises
    IndexError and changes nothing; on a board with fewer it appends a
    fresh player with the entry coordinate [starts[k]], holding one fresh
    figure on that coordinate, named by the argument or else "A" for
    the first player and "B" for the second, and keeps the size, the
    grid, and the players and figures there were. *)
Theorem X9_add_player (w : World) (representation : option string) :
  Board_built (w_board w) →
  let k := length (b_players (w_board w)) in
  let w' := exec (Board_add_player representation) w in
  let name := match representation with
              | Some r => r
              | None => if decide (k = 0%nat) then "A" else "B"
              end in
  let new_player := length (w_players w) in
  let new_figure := length (w_figures w) in
  ((2 ≤ k)%nat → Board_add_player representation w = (Raise IndexError, w))
  ∧ ((k < 2)%nat →
     ∃ home, b_starts (w_board w) !! k = Some home
       ∧ eval (Board_add_player representation) w = Ok new_player
       ∧ w_players w' !!! new_player = mkPlayer name home [new_figure]
       ∧ w_figures w' !!! new_figure = mkFigure home home name
       ∧ b_players (w_board w') = b_players (w_board w) ++ [new_player]
       ∧ b_n (w_board w') = b_n (w_board w)
       ∧ b_board (w_board w') = b_board (w_board w)
       ∧ b_starts (w_board w') = b_starts (w_board w)
       ∧ (∀ pl, (pl < new_player)%nat → w_players w' !!! pl = w_players w !!! pl)
       ∧ (∀ g, (g < new_figure)%nat → w_figures w' !!! g = w_figures w !!! g)).
Proof. apply add_player_effect. Qed.

(** The first player of the board of size 7, with the default name. *)
Lemma X9_add_player_witness :
  let w := mkWorld [] [] (board_of 7) in
  let representation : option string := None in
  let k := length (b_players (w_board w)) in
  let w' := exec (Board_add_player representation) w in
  let name := match representation with
              | Some r => r
              | None => if decide (k = 0%nat) then "A" else "B"
              end in
  let new_player := length (w_players w) in
  let new_figure := length (w_figures w) in
  ((2 ≤ k)%nat → Board_add_player representation w = (Raise IndexError, w))
  ∧ ((k < 2)%nat →
     ∃ home, b_starts (w_board w) !! k = Some home
       ∧ eval (Board_add_player representation) w = Ok new_player
       ∧ w_players w' !!! new_player = mkPlayer name home [new_figure]
       ∧ w_figures w' !!! new_figure = mkFigure home home name
       ∧ b_players (w_board w') = b_players (w_board w) ++ [new_player]
       ∧ b_n (w_board w') = b_n (w_board w)
       ∧ b_board (w_board w') = b_board (w_board w)
       ∧ b_starts (w_board w') = b_starts (w_board w)
       ∧ (∀ pl, (pl < new_player)%nat → w_players w' !!! pl = w_players w !!! pl)
       ∧ (∀ g, (g < new_figure)%nat → w_figures w' !!! g = w_figures w !!! g)).
Proof.
  apply (X9_add_player (mkWorld [] [] (board_of 7)) None).
  split; reflexivity.
Defined.

Lemma held_figure_allocated w pl f :
  World_wf w → f ∈ p_figures (w_players w !!! pl) →
  (f < length (w_figures w))%nat.
Proof.
  intros (_ & Hall & _) Hf.
  apply player_figures_allocated in Hf as [_ Hf].
  rewrite Forall_forall in Hall. by apply Hall.
Qed.

Lemma homes_inv_add_figure w self :
  World_wf w → (self < length (w_players w))%nat →
  homes_inv w → homes_inv (exec (Player_add_figure self) w).
Proof.
  intros Hwf Hself Hinv i pl Hpl. unfold exec.
  rewrite run_Player_add_figure. simpl in *.
  destruct (Hinv i pl Hpl) as [Hhome Hfigs].
  assert (∀ f, f ∈ p_figures (w_players w !!! pl) →
               ∀ v, (w_figures w ++ [v]) !!! f = w_figures w !!! f) as Hold.
  { intros f Hf v. apply lookup_total_app_l.
    by apply (held_figure_allocated w pl). }
  destruct (decide (pl = self)) as [->|Hne].
  - rewrite list_lookup_total_insert_eq by done. simpl.
    split; [done|]. apply Forall_app. split.
    + apply Forall_forall. intros f Hf. rewrite Hold by done.
      rewrite Forall_forall in Hfigs. by apply Hfigs.
    + apply Forall_singleton.
      by rewrite (list_lookup_total_middle _ [] _ (length (w_figures w))).
  - rewrite list_lookup_total_insert_ne by done.
    split; [done|]. apply Forall_forall. intros f Hf. rewrite Hold by done.
    rewrite Forall_forall in Hfigs. by apply Hfigs.
Qed.

Lemma insert_figure_start (figures : list Figure) figure position f :
  f_start_position
    (<[figure := mkFigure (f_start_position (figures !!! figure)) position
                   (f_representation (figures !!! figure))]> figures !!! f)
  = f_start_position (figures !!! f).
Proof.
  rewrite list_lookup_total_insert.
  case_decide as Heq; [|done]. by destruct Heq as [-> _].
Qed.

Lemma homes_inv_move_figure w figure x y :
  World_wf w → homes_inv w →
  homes_inv (exec (Board_move_figure figure x y) w).
Proof.
  intros Hwf Hinv i pl. pose proof Hwf as (Hnd & _).
  pose proof (run_Board_move_figure w figure x y Hnd) as Hmove.
  cbv zeta in Hmove. unfold exec.
  destruct (head (figures_at w (x, y))) as [g|].
  - destruct Hmove as (owner & l' & _ & Halloc & Hg & Hrem & ->). simpl.
    intros Hpl. destruct (Hinv i pl Hpl) as [Hhome Hfigs].
    destruct (list_remove_elem g _ Hg (NoDup_player_figures _ owner Hnd))
      as (l'' & Hrem' & Hgone & Hsame & _).
    rewrite Hrem in Hrem'. injection Hrem' as <-.
    destruct (decide (pl = owner)) as [->|Hne].
    + rewrite list_lookup_total_insert_eq by done. simpl.
      split; [done|]. apply Forall_forall. intros f Hf.
      rewrite insert_figure_start. rewrite Forall_forall in Hfigs.
      apply Hfigs. apply Hsame; [|done]. by intros ->.
    + rewrite list_lookup_total_insert_ne by done.
      split; [done|]. apply Forall_forall. intros f Hf.
      rewrite insert_figure_start. rewrite Forall_forall in Hfigs.
      by apply Hfigs.
  - rewrite Hmove. simpl. intros Hpl.
    destruct (Hinv i pl Hpl) as [Hhome Hfigs]. split; [done|].
    apply Forall_forall. intros f Hf. rewrite insert_figure_start.
    rewrite Forall_forall in Hfigs. by apply Hfigs.
Qed.

Lemma homes_inv_add_player w representation :
  World_wf w → Board_built (w_board w) →
  homes_inv w → homes_inv (exec (Board_add_player representation) w).
Proof.
  intros Hwf Hb Hinv.
  destruct (add_player_effect w representation Hb) as [Hfull Hroom].
  destruct (decide (2 ≤ length (b_players (w_board w)))%nat) as [Hk|Hk].
  { unfold exec. by rewrite Hfull. }
  destruct Hroom as (home & Hhome & _ & Hnew & Hfig & Hpls & _ & _ & Hst
                     & Hold & Holdf); [lia|].
  intros i pl. rewrite Hpls, Hst. intros Hpl.
  apply lookup_app_Some in Hpl as [Hpl|[Hi Hpl]].
  - destruct (Hinv i pl Hpl) as [Hs Hfigs].
    assert (pl < length (w_players w))%nat as Hlt.
    { destruct Hwf as (_ & _ & Hall). rewrite Forall_forall in Hall.
      apply Hall. by eapply list_elem_of_lookup_2. }
    rewrite Hold by done. split; [done|].
    apply Forall_forall. intros f Hf.
    rewrite Holdf by (by eapply held_figure_allocated).
    rewrite Forall_forall in Hfigs. by apply Hfigs.
  - apply list_lookup_singleton_Some in Hpl as [Hi0 <-].
    assert (i = length (b_players (w_board w))) as -> by lia.
    rewrite Hnew. simpl. split; [done|].
    apply Forall_singleton. by rewrite Hfig.
Qed.

Lemma players_NoDup_add_player w representation :
  World_wf w → Board_built (w_board w) →
  NoDup (b_players (w_board w)) →
  NoDup (b_players (w_board (exec (Board_add_player representation) w))).
Proof.
  intros Hwf Hb Hnd.
  destruct (add_player_effect w representation Hb) as [Hfull Hroom].
  destruct (decide (2 ≤ length (b_players (w_board w)))%nat) as [Hk|Hk].
  { unfold exec. by rewrite Hfull. }
  destruct Hroom as (home & _ & _ & _ & _ & -> & _); [lia|].
  apply NoDup_app. split; [done|]. split; [|apply NoDup_singleton].
  intros pl Hpl ->%list_elem_of_singleton.
  destruct Hwf as (_ & _ & Hall). rewrite Forall_forall in Hall.
  apply Hall in Hpl. lia.
Qed.

Lemma reachable_homes w :
  reachable w → NoDup (b_players (w_board w)) ∧ homes_inv w.
Proof.
  induction 1 as [n board Hinit|w r Hw [IHnd IH]|w pl Hw [IHnd IH] Hpl
                 |w figure x y Hw [IHnd IH] Hfig].
  - assert (b_players board = []) as Hnone.
    { unfold Board_init in Hinit. case_decide; [|done].
      by injection Hinit as <-. }
    split; simpl; [rewrite Hnone; constructor|].
    intros i pl. simpl. by rewrite Hnone.
  - destruct (reachable_wf w Hw) as [Hwf Hb].
    split; [by apply players_NoDup_add_player|by apply homes_inv_add_player].
  - destruct (reachable_wf w Hw) as [Hwf Hb].
    assert (pl < length (w_players w))%nat as Hlt.
    { destruct Hwf as (_ & _ & Hall). rewrite Forall_forall in Hall.
      by apply Hall. }
    split; [|by apply homes_inv_add_figure].
    unfold exec. by rewrite run_Player_add_figure.
  - destruct (reachable_wf w Hw) as [Hwf Hb].
    split; [|by apply homes_inv_move_figure].
    destruct Hwf as (Hnd & _).
    pose proof (run_Board_move_figure w figure x y Hnd) as Hmove.
    cbv zeta in Hmove. unfold exec.
    destruct (head (figures_at w (x, y))) as [g|].
    + by destruct Hmove as (owner & l' & _ & _ & _ & _ & ->).
    + by rewrite Hmove.
Qed.

(** X10: every world built by the constructor and any sequence of
    [add_player], [add_figure] and [move_figure] has no figure in two
    lists, only allocated references, the grid as constructed, no player
    twice on the board, and at most two players. *)
Theorem X10_reachable_invariant (w : World) :
  reachable w →
  World_wf w
  ∧ Board_built (w_board w)
  ∧ NoDup (b_players (w_board w))
  ∧ (length (b_players (w_board w)) ≤ 2)%nat.
Proof.
  intros Hw. destruct (reachable_wf w Hw) as [Hwf Hb].
  destruct (reachable_homes w Hw) as [Hnd Hhomes].
  repeat (split; [done|]).
  destruct (b_players (w_board w)) as [|p0 [|p1 [|p2 ps]]] eqn:Hps;
    simpl; try lia.
  destruct (Hhomes 2%nat p2) as [Hs _]; [by rewrite Hps|].
  destruct Hb as [_ Hstarts]. by rewrite Hstarts in Hs.
Qed.

(** The board of size 7 with its two players. *)
Lemma X10_reachable_invariant_witness :
  World_wf (game_of 7)
  ∧ Board_built (w_board (game_of 7))
  ∧ NoDup (b_players (w_board (game_of 7)))
  ∧ (length (b_players (w_board (game_of 7))) ≤ 2)%nat.
Proof.
  apply (X10_reachable_invariant (game_of 7)).
  apply game_of_reachable. exists 3. reflexivity.
Defined.

(** X11: in every such world the [i]-th player of the board has the
    entry coordinate [starts[i]], every figure the player holds has it as
    its start position, and it is (N // 2 + 1, 0) for the first player
    and (N // 2 - 1, N - 1) for the second. *)
Theorem X11_start_positions (w : World) (i pl f : nat) :
  reachable w →
  b_players (w_board w) !! i = Some pl →
  f ∈ p_figures (w_players w !!! pl) →
  let home := p_home_position (w_players w !!! pl) in
  b_starts (w_board w) !! i = Some home
  ∧ f_start_position (w_figures w !!! f) = home
  ∧ (i = 0%nat ∧ home = (b_n (w_board w) / 2 + 1, 0)
     ∨ i = 1%nat ∧ home = (b_n (w_board w) / 2 - 1, b_n (w_board w) - 1)).
Proof.
  intros Hw Hpl Hf home. subst home.
  destruct (reachable_wf w Hw) as [_ [_ Hstarts]].
  destruct (reachable_homes w Hw) as [_ Hhomes].
  destruct (Hhomes i pl Hpl) as [Hs Hfigs].
  split; [done|]. split.
  - rewrite Forall_forall in Hfigs. by apply Hfigs.
  - rewrite Hstarts in Hs. destruct i as [|[|i]]; simpl in Hs; [| |done].
    + left. by injection Hs as <-.
    + right. by injection Hs as <-.
Qed.

(** Player B and its figure on the board of size 7. *)
Lemma X11_start_positions_witness :
  let w := game_of 7 in
  let home := p_home_position (w_players w !!! 1%nat) in
  b_starts (w_board w) !! 1%nat = Some home
  ∧ f_start_position (w_figures w !!! 1%nat) = home
  ∧ (1%nat = 0%nat ∧ home = (b_n (w_board w) / 2 + 1, 0)
     ∨ 1%nat = 1%nat ∧ home = (b_n (w_board w) / 2 - 1, b_n (w_board w) - 1)).
Proof.
  apply (X11_start_positions (game_of 7) 1 1 1).
  - apply game_of_reachable. exists 3. reflexivity.
  - reflexivity.
  - apply (bool_decide_unpack _). vm_compute. exact I.
Defined.

Lemma elem_of_board_figures w h :
  h ∈ board_figures w ↔
  ∃ pl, pl ∈ b_players (w_board w) ∧ h ∈ p_figures (w_players w !!! pl).
Proof.
  unfold board_figures. rewrite list_elem_of_bind. split.
  - intros (pl & ? & ?). by exists pl.
  - intros (pl & ? & ?). by exists pl.
Qed.

Lemma board_figure_allocated w h :
  World_wf w → h ∈ board_figures w → (h < length (w_figures w))%nat.
Proof.
  intros (_ & Hall & _) (pl & _ & Hh)%elem_of_board_figures.
  apply player_figures_allocated in Hh as [_ Hh].
  rewrite Forall_forall in Hall. by apply Hall.
Qed.

(** What a move changes: one position, and at most one figure leaves the
    board. *)
Lemma move_figure_effect w figure x y :
  World_wf w → (figure < length (w_figures w))%nat →
  let w' := exec (Board_move_figure figure x y) w in
  (∀ h, f_position (w_figures w' !!! h)
        = if decide (h = figure) then (x, y) else f_position (w_figures w !!! h))
  ∧ w_board w' = w_board w
  ∧ (∀ h, h ∈ board_figures w' ↔
          h ∈ board_figures w ∧ head (figures_at w (x, y)) ≠ Some h).
Proof.
  intros Hwf Hfig w'. subst w'. pose proof Hwf as (Hnd & _).
  pose proof (run_Board_move_figure w figure x y Hnd) as Hmove.
  cbv zeta in Hmove. unfold exec.
  assert (∀ v h, f_position (<[figure := mkFigure
              (f_start_position (w_figures w !!! figure)) (x, y) v]>
              (w_figures w) !!! h)
            = if decide (h = figure) then (x, y)
              else f_position (w_figures w !!! h)) as Hpos.
  { intros v h. rewrite list_lookup_total_insert.
    destruct (decide (h = figure)) as [->|Hne].
    - by rewrite decide_True.
    - rewrite decide_False; [done|]. intros [? _]. by apply Hne. }
  destruct (head (figures_at w (x, y))) as [g|] eqn:Hhead.
  - destruct Hmove as (owner & l' & Howner & Halloc & Hg & Hrem & ->). simpl.
    destruct (list_remove_elem g _ Hg (NoDup_player_figures _ owner Hnd))
      as (l'' & Hrem' & Hgone & Hsame & _).
    rewrite Hrem in Hrem'. injection Hrem' as <-.
    split; [apply Hpos|]. split; [done|]. intros h.
    rewrite !elem_of_board_figures. simpl. split.
    + intros (pl & Hpl & Hh). destruct (decide (pl = owner)) as [->|Hne].
      * rewrite list_lookup_total_insert_eq in Hh by done. simpl in Hh.
        assert (h ≠ g) as Hhg by (by intros ->).
        split; [|congruence]. exists owner. split; [done|].
        by apply Hsame.
      * rewrite list_lookup_total_insert_ne in Hh by done.
        split; [by exists pl|]. intros [= <-].
        by apply Hne, (NoDup_one_owner (w_players w) pl owner g).
    + intros [(pl & Hpl & Hh) Hhg]. exists pl. split; [done|].
      destruct (decide (pl = owner)) as [->|Hne].
      * rewrite list_lookup_total_insert_eq by done. simpl.
        apply Hsame; [congruence|done].
      * by rewrite list_lookup_total_insert_ne.
  - rewrite Hmove. simpl. split; [apply Hpos|]. split; [done|].
    intros h. rewrite !elem_of_board_figures. simpl. split.
    + intros ?. by split.
    + by intros [? _].
Qed.

(** X12: after [Board.move_figure] of a figure of the board to a cell
    whose first figure (the captured one) is another one or none, the
    moved figure is on the board at that cell; when the cell held at most
    one figure, the moved one is the only figure there and
    [Board.figure_at] returns it. *)
Theorem X12_move_then_figure_at (w : World) (figure : nat) (x y : Z) :
  World_wf w → figure ∈ board_figures w →
  head (figures_at w (x, y)) ≠ Some figure →
  let w' := exec (Board_move_figure figure x y) w in
  figure ∈ figures_at w' (x, y)
  ∧ occupied w' (x, y)
  ∧ ((length (figures_at w (x, y)) ≤ 1)%nat →
     (∀ h, h ∈ figures_at w' (x, y) → h = figure)
     ∧ ∃ pl, eval (Board_figure_at x y) w' = Ok (Some figure, Some pl)).
Proof.
  intros Hwf Hin Hnot w'.
  pose proof (board_figure_allocated w figure Hwf Hin) as Hfig.
  destruct (move_figure_effect w figure x y Hwf Hfig) as (Hpos & _ & Hmem).
  fold w' in Hpos, Hmem.
  assert (figure ∈ figures_at w' (x, y)) as Hthere.
  { apply list_elem_of_filter. split.
    - by rewrite Hpos, decide_True.
    - by apply Hmem. }
  split; [done|]. split.
  { apply head_figures_at_occupied, head_is_Some. intros Hnil.
    rewrite Hnil in Hthere. by apply elem_of_nil in Hthere. }
  intros Hone.
  assert (∀ h, h ∈ figures_at w' (x, y) → h = figure) as Honly.
  { intros h [Hp Hh]%list_elem_of_filter.
    destruct (decide (h = figure)) as [|Hne]; [done|]. exfalso.
    rewrite Hpos, decide_False in Hp by done.
    apply Hmem in Hh as [Hh Hhead].
    assert (h ∈ figures_at w (x, y)) as Hat
      by (by apply list_elem_of_filter).
    destruct (figures_at w (x, y)) as [|g [|g' gs]]; simpl in *.
    - by apply elem_of_nil in Hat.
    - apply list_elem_of_singleton in Hat as ->. by apply Hhead.
    - lia. }
  split; [done|].
  destruct (eval_Board_figure_at x y w') as (r & Hr & Hr1 & Hr2).
  destruct (figures_at w' (x, y)) as [|g gs] eqn:Hat.
  { by apply elem_of_nil in Hthere. }
  assert (g = figure) as -> by (apply Honly, elem_of_cons; by left).
  simpl in Hr1. rewrite Hr1 in Hr2. destruct Hr2 as (pl & Hpl & _).
  exists pl. rewrite Hr. destruct r as [r1 r2]. simpl in *. by subst.
Qed.

(** Player B's figure captures player A's at (4, 0). *)
Lemma X12_move_then_figure_at_witness :
  let w := game_of 7 in
  let w' := exec (Board_move_figure 1 4 0) w in
  1%nat ∈ figures_at w' (4%Z, 0%Z)
  ∧ occupied w' (4, 0)
  ∧ ((length (figures_at w (4%Z, 0%Z)) ≤ 1)%nat →
     (∀ h, h ∈ figures_at w' (4%Z, 0%Z) → h = 1%nat)
     ∧ ∃ pl, eval (Board_figure_at 4 0) w' = Ok (Some 1%nat, Some pl)).
Proof.
  apply (X12_move_then_figure_at (game_of 7) 1 4 0).
  - apply (bool_decide_unpack _). vm_compute. exact I.
  - apply (bool_decide_unpack _). vm_compute. exact I.
  - vm_compute. discriminate.
Defined.

Lemma reach_app w self a b p q r :
  reach w self a p q → reach w self b q r → reach w self (a + b) p r.
Proof.
  induction 1 as [p|a p p' q Hbody Hrest IH]; intros Hb; [done|].
  simpl. econstructor; [done|]. by apply IH.
Qed.

Lemma loop_app w self a b p q :
  reach w self a p q →
  eval (Figure_next_position_loop self (a + b) p) w
  = eval (Figure_next_position_loop self b q) w.
Proof.
  induction 1 as [p|a p p' q Hbody Hrest IH]; [done|].
  cbn [Nat.add]. by rewrite eval_Figure_next_position_loop_S, Hbody.
Qed.

Section lanes.
Context (w : World) (self : nat) (m j : Z).
Hypothesis Hb : Board_built (w_board w).
Hypothesis Hn : b_n (w_board w) = 2 * m + 1.
Hypothesis Hm : 2 ≤ m.
Hypothesis Hj : j = 0 ∨ j = 4 * m.
Hypothesis Hstart : f_start_position (w_figures w !!! self) = track m j.

Lemma lane_cell_HOME i :
  1 ≤ i ≤ m - 1 →
  in_board (w_board w) (lane_cell m j i)
  ∧ Board_box_at (w_board w) (lane_cell m j i).1 (lane_cell m j i).2 = HOME.
Proof.
  intros Hi. unfold lane_cell, in_board.
  case_bool_decide; simpl; (split; [lia|]);
    apply (box_at_HOME _ m Hn Hm); lia.
Qed.

Lemma lane_not_start i : 1 ≤ i ≤ m - 1 → lane_cell m j i ≠ track m j.
Proof.
  intros Hi. unfold lane_cell. destruct Hj as [-> | ->].
  - rewrite track_first_entry by done. rewrite bool_decide_eq_true_2 by done.
    intros [= ? ?]. lia.
  - rewrite track_second_entry by done.
    rewrite bool_decide_eq_false_2 by lia. intros [= ? ?]. lia.
Qed.

Lemma body_in_lane i :
  1 ≤ i < m - 1 →
  eval (Figure_next_position_body self (lane_cell m j i)) w
  = Ok (Some (lane_cell m j (i + 1))).
Proof.
  intros Hi. rewrite eval_Figure_next_position_body.
  destruct (lane_cell_HOME i) as [Hin Hhome]; [lia|].
  destruct (home_lane_advance _ m Hb Hn Hm _ _ Hin Hhome)
    as (_ & Hdown & Hup & _).
  assert (Board_next_position (w_board w) (lane_cell m j i).1
            (lane_cell m j i).2 = Ok (Some (lane_cell m j (i + 1)))) as ->.
  { revert Hdown Hup. unfold lane_cell. case_bool_decide; simpl.
    - intros Hdown _. by rewrite Hdown by lia.
    - intros _ Hup. rewrite Hup by lia. apply Ok_Some_pair; lia. }
  cbv zeta. rewrite Hstart. rewrite decide_False; [done|].
  intros [= Heq]. by apply (lane_not_start (i + 1)) in Heq; [|lia].
Qed.

Lemma body_lane_end :
  eval (Figure_next_position_body self (lane_cell m j (m - 1))) w = Ok None.
Proof.
  rewrite eval_Figure_next_position_body.
  destruct (lane_cell_HOME (m - 1)) as [Hin Hhome]; [lia|].
  destruct (home_lane_advance _ m Hb Hn Hm _ _ Hin Hhome) as (Hend & _).
  rewrite Hend.
  - cbv zeta. by rewrite decide_False.
  - unfold lane_cell. case_bool_decide; simpl; lia.
Qed.

Lemma reach_in_lane (k : nat) : ∀ i,
  1 ≤ i → i + Z.of_nat k ≤ m - 1 →
  reach w self k (lane_cell m j i) (lane_cell m j (i + Z.of_nat k)).
Proof.
  induction k as [|k IH]; intros i Hi Hk.
  - replace (i + Z.of_nat 0) with i by lia. constructor.
  - econstructor; [apply body_in_lane; lia|].
    replace (i + Z.of_nat (S k)) with (i + 1 + Z.of_nat k) by lia.
    apply IH; lia.
Qed.

Lemma loop_lane_overshoot (k : nat) i :
  1 ≤ i ≤ m - 1 → m - 1 < i + Z.of_nat k →
  eval (Figure_next_position_loop self k (lane_cell m j i)) w = Ok None.
Proof.
  intros Hi Hk.
  assert (reach w self (Z.to_nat (m - 1 - i)) (lane_cell m j i)
            (lane_cell m j (m - 1))) as Hend.
  { replace (m - 1) with (i + Z.of_nat (Z.to_nat (m - 1 - i))) at 2 by lia.
    apply reach_in_lane; lia. }
  apply (loop_stuck self w _ _ _ Hend body_lane_end). lia.
Qed.

Lemma body_enter_lane :
  eval (Figure_next_position_body self (track m (wrap m (j + (8 * m - 1))))) w
  = Ok (Some (lane_cell m j 1)).
Proof.
  rewrite (body_redirect w self m j Hstart).
  - destruct (home_position_entry w self m j Hn Hm Hj Hstart)
      as (lane & -> & _ & Hwhich).
    do 2 f_equal. unfold lane_cell.
    destruct Hwhich as [[-> ->] | [-> ->]].
    + by rewrite bool_decide_eq_true_2.
    + by rewrite bool_decide_eq_false_2 by lia.
  - rewrite (track_step_wrap w m Hb Hn Hm) by lia. do 3 f_equal.
    unfold wrap. case_bool_decide; lia.
Qed.

(** The loop of [Figure.next_position] from the [t]-th cell of the lap. *)
Lemma loop_from_track (t : Z) (d : nat) :
  0 ≤ t < 8 * m →
  eval (Figure_next_position_loop self d (track m (wrap m (j + t)))) w
  = if decide (t + Z.of_nat d < 8 * m)
    then Ok (Some (track m (wrap m (j + t + Z.of_nat d))))
    else if decide (t + Z.of_nat d - 8 * m + 1 ≤ m - 1)
    then Ok (Some (lane_cell m j (t + Z.of_nat d - 8 * m + 1)))
    else Ok None.
Proof.
  intros Ht. destruct (decide (t + Z.of_nat d < 8 * m)) as [Hlap|Hlap].
  - apply loop_reach.
    apply (reach_on_track w self m j Hb Hn Hm Hj Hstart d t); lia.
  - set (a := Z.to_nat (8 * m - 1 - t)).
    assert (reach w self (S a) (track m (wrap m (j + t))) (lane_cell m j 1))
      as Hin.
    { eapply reach_snoc.
      - apply (reach_on_track w self m j Hb Hn Hm Hj Hstart a t); lia.
      - replace (j + t + Z.of_nat a) with (j + (8 * m - 1)) by lia.
        apply body_enter_lane. }
    destruct (decide (t + Z.of_nat d - 8 * m + 1 ≤ m - 1)) as [Hfit|Hover].
    + apply loop_reach.
      replace d with (S a + (d - S a))%nat by lia.
      eapply reach_app; [exact Hin|].
      replace (t + Z.of_nat (S a + (d - S a)) - 8 * m + 1)
        with (1 + Z.of_nat (d - S a)) by lia.
      apply reach_in_lane; lia.
    + replace d with (S a + (d - S a))%nat by lia.
      rewrite (loop_app w self (S a) (d - S a) _ _ Hin).
      apply loop_lane_overshoot; lia.
Qed.

Lemma loop_from_lane (i : Z) (d : nat) :
  1 ≤ i ≤ m - 1 →
  eval (Figure_next_position_loop self d (lane_cell m j i)) w
  = if decide (i + Z.of_nat d ≤ m - 1)
    then Ok (Some (lane_cell m j (i + Z.of_nat d)))
    else Ok None.
Proof.
  intros Hi. case_decide.
  - apply loop_reach. apply reach_in_lane; lia.
  - apply loop_lane_overshoot; lia.
Qed.

Lemma track_not_HOME t :
  0 ≤ t < 16 * m →
  Board_box_at (w_board w) (track m (wrap m t)).1 (track m (wrap m t)).2 ≠ HOME.
Proof.
  intros Ht. rewrite (track_PATH _ m Hn Hm); [done|].
  pose proof (wrap_range m t Ht). lia.
Qed.
End lanes.

Lemma entry_index (w : World) (self : nat) (m j : Z) :
  b_n (w_board w) = 2 * m + 1 → 2 ≤ m →
  j = 0 ∧ f_start_position (w_figures w !!! self) = (m + 1, 0)
  ∨ j = 4 * m
    ∧ f_start_position (w_figures w !!! self) = (m - 1, b_n (w_board w) - 1) →
  (j = 0 ∨ j = 4 * m) ∧ f_start_position (w_figures w !!! self) = track m j.
Proof.
  intros Hn Hm [[-> ->] | [-> ->]].
  - split; [by left|]. by rewrite track_first_entry.
  - split; [by right|]. rewrite track_second_entry by done. f_equal. lia.
Qed.

(** X13: [Figure.next_position] on the lap.  A figure [t] cells after
    its entry coordinate that moves [d >= 1] cells stays on the lap, [d]
    cells further, while t + d is less than the perimeter, whoever stands
    there; with i = t + d - 8 (N // 2) + 1 it ends on the [i]-th cell of
    its home lane when the lane has that many cells and that cell is
    free, and cannot move (None) otherwise. *)
Theorem X13_move_on_track (w : World) (self : nat) (j t d : Z) :
  Board_built (w_board w) → Z.Odd (b_n (w_board w)) → 5 ≤ b_n (w_board w) →
  let m := b_n (w_board w) / 2 in
  let fig := w_figures w !!! self in
  j = 0 ∧ f_start_position fig = (m + 1, 0)
  ∨ j = 4 * m ∧ f_start_position fig = (m - 1, b_n (w_board w) - 1) →
  0 ≤ t < 8 * m → f_position fig = track m (wrap m (j + t)) → 1 ≤ d →
  eval (Figure_next_position self d) w
  = if decide (t + d < 8 * m)
    then Ok (Some (track m (wrap m (j + t + d))))
    else if decide (t + d - 8 * m + 1 ≤ m - 1
                    ∧ ¬ occupied w (lane_cell m j (t + d - 8 * m + 1)))
    then Ok (Some (lane_cell m j (t + d - 8 * m + 1)))
    else Ok None.
Proof.
  intros Hb Hodd H5 m fig Hentry Ht Hpos Hd.
  destruct (odd_size _ Hodd H5) as [Hn Hm]. fold m in Hn, Hm.
  destruct (entry_index w self m j Hn Hm Hentry) as [Hj Hstart].
  rewrite eval_Figure_next_position. fold fig. rewrite Hpos.
  rewrite (loop_from_track w self m j Hb Hn Hm Hj Hstart) by done.
  rewrite Z2Nat.id by lia.
  destruct (decide (t + d < 8 * m)) as [Hlap|Hlap].
  - rewrite decide_False; [done|]. intros [_ Hhome].
    by apply (track_not_HOME w m Hn Hm (j + t + d)) in Hhome; [|lia].
  - destruct (decide (t + d - 8 * m + 1 ≤ m - 1)) as [Hfit|Hover].
    + destruct (lane_cell_HOME w m j Hn Hm Hj (t + d - 8 * m + 1)) as [_ Hhome];
        [lia|].
      destruct (decide (occupied w (lane_cell m j (t + d - 8 * m + 1)))).
      * rewrite decide_True by done. rewrite decide_False; [done|]. tauto.
      * rewrite decide_False by tauto. by rewrite decide_True.
    + rewrite decide_False; [done|]. tauto.
Qed.

(** Player A's figure on its entry coordinate moves three cells. *)
Lemma X13_move_on_track_witness :
  let w := game_of 7 in
  let m := b_n (w_board w) / 2 in
  eval (Figure_next_position 0 3) w
  = if decide (0 + 3 < 8 * m)
    then Ok (Some (track m (wrap m (0 + 0 + 3))))
    else if decide (0 + 3 - 8 * m + 1 ≤ m - 1
                    ∧ ¬ occupied w (lane_cell m 0 (0 + 3 - 8 * m + 1)))
    then Ok (Some (lane_cell m 0 (0 + 3 - 8 * m + 1)))
    else Ok None.
Proof.
  apply (X13_move_on_track (game_of 7) 0 0 0 3).
  - split; reflexivity.
  - exists 3. reflexivity.
  - vm_compute. discriminate.
  - left. split; reflexivity.
  - vm_compute. split; [discriminate|reflexivity].
  - reflexivity.
  - lia.
Defined.

(** X14: [Figure.next_position] in the home lane.  A figure on the
    [i]-th cell of its lane is on a HOME cell, and moves [d >= 1] cells
    to the (i + d)-th cell when the lane has that many cells and that
    cell is free, and cannot move (None) otherwise. *)
Theorem X14_move_in_lane (w : World) (self : nat) (j i d : Z) :
  Board_built (w_board w) → Z.Odd (b_n (w_board w)) → 5 ≤ b_n (w_board w) →
  let m := b_n (w_board w) / 2 in
  let fig := w_figures w !!! self in
  j = 0 ∧ f_start_position fig = (m + 1, 0)
  ∨ j = 4 * m ∧ f_start_position fig = (m - 1, b_n (w_board w) - 1) →
  1 ≤ i ≤ m - 1 → f_position fig = lane_cell m j i → 1 ≤ d →
  Board_box_at (w_board w) (f_position fig).1 (f_position fig).2 = HOME
  ∧ eval (Figure_next_position self d) w
    = if decide (i + d ≤ m - 1 ∧ ¬ occupied w (lane_cell m j (i + d)))
      then Ok (Some (lane_cell m j (i + d)))
      else Ok None.
Proof.
  intros Hb Hodd H5 m fig Hentry Hi Hpos Hd.
  destruct (odd_size _ Hodd H5) as [Hn Hm]. fold m in Hn, Hm.
  destruct (entry_index w self m j Hn Hm Hentry) as [Hj Hstart].
  split.
  { rewrite Hpos. by apply (lane_cell_HOME w m j Hn Hm Hj i). }
  rewrite eval_Figure_next_position. fold fig. rewrite Hpos.
  rewrite (loop_from_lane w self m j Hb Hn Hm Hj Hstart) by done.
  rewrite Z2Nat.id by lia.
  destruct (decide (i + d ≤ m - 1)) as [Hfit|Hover].
  - destruct (lane_cell_HOME w m j Hn Hm Hj (i + d)) as [_ Hhome]; [lia|].
    destruct (decide (occupied w (lane_cell m j (i + d)))).
    + rewrite decide_True by done. rewrite decide_False; [done|]. tauto.
    + rewrite decide_False by tauto. by rewrite decide_True.
  - rewrite decide_False; [done|]. tauto.
Qed.

(** Player A's figure on the first cell of the top lane moves one cell. *)
Lemma X14_move_in_lane_witness :
  let w := exec (Board_move_figure 0 3 1) (game_of 7) in
  let m := b_n (w_board w) / 2 in
  let fig := w_figures w !!! 0%nat in
  Board_box_at (w_board w) (f_position fig).1 (f_position fig).2 = HOME
  ∧ eval (Figure_next_position 0 1) w
    = if decide (1 + 1 ≤ m - 1 ∧ ¬ occupied w (lane_cell m 0 (1 + 1)))
      then Ok (Some (lane_cell m 0 (1 + 1)))
      else Ok None.
Proof.
  apply (X14_move_in_lane (exec (Board_move_figure 0 3 1) (game_of 7)) 0 0 1 1).
  - split; reflexivity.
  - exists 3. reflexivity.
  - vm_compute. discriminate.
  - left. split; reflexivity.
  - vm_compute. split; discriminate.
  - reflexivity.
  - lia.
Defined.

(** ** The game loop *)

Lemma reads_Player_active_figures_loop figures :
  reads (Player_active_figures_loop figures).
Proof.
  induction figures as [|f figures IH]; simpl; [auto with reads|].
  apply reads_bind; [apply reads_Figure_is_home|]. intros home.
  apply reads_bind.
  { destruct (negb home); [auto with reads|].
    apply reads_bind; [apply reads_Figure_next_position|].
    auto with reads. }
  intros keep. apply reads_bind; [done|]. auto with reads.
Qed.

Lemma reads_Player_active_figures self : reads (Player_active_figures self).
Proof.
  unfold Player_active_figures.
  apply reads_bind; [auto with reads|].
  intros. apply reads_Player_active_figures_loop.
Qed.

Section safe_walk.
Context (w : World) (self : nat) (m : Z).
Hypothesis Hb : Board_built (w_board w).
Hypothesis Hn : b_n (w_board w) = 2 * m + 1.
Hypothesis Hm : 2 ≤ m.

Lemma home_position_on_track x y q :
  Board_home_position (w_board w) x y = Some q →
  in_board (w_board w) q ∧ Board_box_at (w_board w) q.1 q.2 = HOME.
Proof.
  unfold Board_home_position. rewrite (half_n _ m Hn).
  repeat case_bool_decide; intros [= <-]; simpl;
    (split; [unfold in_board; simpl; lia|]);
    apply (box_at_HOME _ m Hn Hm); lia.
Qed.

(** One turn of the loop from a PATH or HOME cell of the grid. *)
Lemma body_safe p :
  on_track (w_board w) p →
  ∃ r, eval (Figure_next_position_body self p) w = Ok r
     ∧ ∀ q, r = Some q →
         on_track (w_board w) q
         ∧ (Board_box_at (w_board w) p.1 p.2 = HOME →
            Board_box_at (w_board w) q.1 q.2 = HOME).
Proof.
  intros [Hin Hkind]. rewrite eval_Figure_next_position_body.
  destruct p as [x y]. cbn [fst snd] in *.
  destruct (next_position_in_board _ m Hb Hn Hm x y Hin)
    as (r0 & -> & _ & Hq).
  cbv zeta. case_decide as Hredirect.
  - eexists. split; [done|]. intros q Hlane.
    apply home_position_on_track in Hlane as [? ?].
    split; [|done]. split; [done|]. by right.
  - exists r0. split; [done|]. intros q ->.
    destruct (Hq q eq_refl) as (Hinq & _ & Hpath & Hhome).
    split; [|done]. split; [done|]. simpl in *.
    destruct Hkind; [left|right]; auto.
Qed.

Lemma loop_safe (k : nat) : ∀ p,
  on_track (w_board w) p →
  ∃ r, eval (Figure_next_position_loop self k p) w = Ok r
     ∧ ∀ q, r = Some q →
         on_track (w_board w) q
         ∧ (Board_box_at (w_board w) p.1 p.2 = HOME →
            Board_box_at (w_board w) q.1 q.2 = HOME).
Proof.
  induction k as [|k IH]; intros p Hp.
  - exists (Some p). split; [done|]. by intros q [= <-].
  - rewrite eval_Figure_next_position_loop_S.
    destruct (body_safe p Hp) as (r & -> & Hr).
    destruct r as [p'|]; [|by exists None].
    destruct (Hr p' eq_refl) as [Hp' Hhome].
    destruct (IH p' Hp') as (r' & -> & Hr').
    exists r'. split; [done|]. intros q ->.
    destruct (Hr' q eq_refl) as [? ?]. split; auto.
Qed.

Lemma next_position_never_raises moves :
  on_track (w_board w) (f_position (w_figures w !!! self)) →
  ∃ r, eval (Figure_next_position self moves) w = Ok r
     ∧ ∀ q, r = Some q →
         on_track (w_board w) q
         ∧ (Board_box_at (w_board w) (f_position (w_figures w !!! self)).1
              (f_position (w_figures w !!! self)).2 = HOME →
            Board_box_at (w_board w) q.1 q.2 = HOME)
         ∧ ¬ (occupied w q ∧ Board_box_at (w_board w) q.1 q.2 = HOME).
Proof.
  intros Hp. rewrite eval_Figure_next_position.
  destruct (loop_safe (Z.to_nat moves) _ Hp) as (r & -> & Hr).
  destruct r as [q|]; [|by exists None].
  destruct (Hr q eq_refl) as [Hq Hhome].
  case_decide as Hocc; [by exists None|].
  exists (Some q). split; [done|]. by intros ? [= <-].
Qed.
End safe_walk.

(** ** The destination of a move on the grid *)

(** A loop that yields None does so at one of its turns. *)
Lemma loop_None self w k : ∀ p,
  eval (Figure_next_position_loop self k p) w = Ok None →
  ∃ i p', (i < k)%nat ∧ reach w self i p p'
          ∧ eval (Figure_next_position_body self p') w = Ok None.
Proof.
  induction k as [|k IH]; intros p; [done|].
  rewrite eval_Figure_next_position_loop_S.
  destruct (eval (Figure_next_position_body self p) w)
    as [[q|]|e] eqn:Hbody; [| |done].
  - intros (i & p' & Hi & Hreach & Hnone)%IH.
    exists (S i), p'. split; [lia|]. split; [|done].
    by econstructor.
  - intros _. exists O, p. split; [lia|]. split; [constructor|done].
Qed.

(** With a start position that has a home lane, a turn yields None
    exactly when the advance does. *)
Lemma body_None self w p :
  (Board_next_position (w_board w) p.1 p.2 = Ok None →
   eval (Figure_next_position_body self p) w = Ok None)
  ∧ (is_Some (Board_home_position (w_board w)
                (f_start_position (w_figures w !!! self)).1
                (f_start_position (w_figures w !!! self)).2) →
     eval (Figure_next_position_body self p) w = Ok None →
     Board_next_position (w_board w) p.1 p.2 = Ok None).
Proof.
  rewrite eval_Figure_next_position_body. cbv zeta. split.
  - intros ->. by rewrite decide_False.
  - intros [h Hh].
    destruct (Board_next_position _ _ _) as [r|e]; [|done].
    case_decide; [|by intros [= ->]]. by rewrite Hh.
Qed.

Section lane_walk.
Context (w : World) (self : nat) (m : Z).
Hypothesis Hb : Board_built (w_board w).
Hypothesis Hn : b_n (w_board w) = 2 * m + 1.
Hypothesis Hm : 2 ≤ m.

(** One turn from a HOME cell of the grid leads one cell closer to the
    centre. *)
Lemma body_lane_closer p q :
  in_board (w_board w) p →
  Board_box_at (w_board w) p.1 p.2 = HOME →
  eval (Figure_next_position_body self p) w = Ok (Some q) →
  in_board (w_board w) q
  ∧ Board_box_at (w_board w) q.1 q.2 = HOME
  ∧ Z.abs (q.1 - m) + Z.abs (q.2 - m) + 1
    = Z.abs (p.1 - m) + Z.abs (p.2 - m).
Proof.
  destruct p as [x y]. cbn [fst snd]. intros Hin Hhome.
  pose proof Hhome as Hcell.
  rewrite (box_at_HOME _ m Hn Hm) in Hcell.
  pose proof Hin as [Hx Hy]. cbn [fst snd] in Hx, Hy. rewrite Hn in Hx, Hy.
  destruct (home_lane_advance _ m Hb Hn Hm x y Hin Hhome)
    as (Hlast & Hdown & Hup & Hright).
  rewrite eval_Figure_next_position_body. cbn [fst snd]. cbv zeta.
  assert (∀ x' y', 1 ≤ x' ≤ 2 * m - 1 → 1 ≤ y' ≤ 2 * m - 1 →
            Board_home_position (w_board w) x' y' = None) as Hinner.
  { intros x' y' Hx' Hy'. unfold Board_home_position. rewrite Hn.
    by rewrite !bool_decide_eq_false_2 by lia. }
  assert (∀ x' y', 1 ≤ x' ≤ 2 * m - 1 → 1 ≤ y' ≤ 2 * m - 1 →
            (x' = m ∨ y' = m) → x' ≠ y' →
            Z.abs (x' - m) + Z.abs (y' - m) + 1
            = Z.abs (x - m) + Z.abs (y - m) →
            (if decide (Some (x', y')
                        = Some (f_start_position (w_figures w !!! self)))
             then Ok (Board_home_position (w_board w)
                        (f_start_position (w_figures w !!! self)).1
                        (f_start_position (w_figures w !!! self)).2)
             else Ok (Some (x', y'))) = Ok (Some q) →
            in_board (w_board w) q
            ∧ Board_box_at (w_board w) q.1 q.2 = HOME
            ∧ Z.abs (q.1 - m) + Z.abs (q.2 - m) + 1
              = Z.abs (x - m) + Z.abs (y - m)) as Hstep.
  { intros x' y' Hx' Hy' Haxis Hne Hdist. case_decide as Hredirect.
    - injection Hredirect as <-. cbn [fst snd].
      by rewrite Hinner.
    - intros [= <-]. cbn [fst snd]. split.
      + unfold in_board. cbn [fst snd]. rewrite Hn. lia.
      + split; [|done]. apply (box_at_HOME _ m Hn Hm). lia. }
  destruct (decide (Z.abs (x - m) + Z.abs (y - m) = 1)) as [Hone|Hfar].
  { rewrite Hlast by done. by rewrite decide_False. }
  destruct (decide (x = m)) as [->|Hxm].
  - destruct (decide (y < m)) as [Hlow|Hhigh].
    + rewrite Hdown by lia. apply Hstep; lia.
    + rewrite Hup by lia. apply Hstep; lia.
  - assert (y = m) as -> by lia.
    destruct (decide (x < m)) as [Hleft|Hrt].
    + rewrite Hright by lia. apply Hstep; lia.
    + destruct (right_lane_no_advance _ m Hb Hn Hm x) as [_ ->]; [lia|].
      by rewrite decide_False.
Qed.

Lemma reach_lane_closer k p q :
  reach w self k p q →
  in_board (w_board w) p →
  Board_box_at (w_board w) p.1 p.2 = HOME →
  Z.abs (q.1 - m) + Z.abs (q.2 - m) + Z.of_nat k
  = Z.abs (p.1 - m) + Z.abs (p.2 - m).
Proof.
  induction 1 as [p|i p p' q Hbody Hrest IH]; intros Hin Hhome; [lia|].
  destruct (body_lane_closer p p' Hin Hhome Hbody) as (Hin' & Hhome' & Hd).
  specialize (IH Hin' Hhome'). lia.
Qed.

(** After at least one turn the figure is not on the cell it left, when
    the cell it reaches is HOME: whoever stands there is another
    figure. *)
Lemma reached_home_other k q :
  (0 < k)%nat →
  on_track (w_board w) (f_position (w_figures w !!! self)) →
  reach w self k (f_position (w_figures w !!! self)) q →
  Board_box_at (w_board w) q.1 q.2 = HOME →
  occupied w q → occupied_by_other w self q.
Proof.
  intros Hk [Hin _] Hreach Hhome Hocc.
  unfold occupied in Hocc. unfold occupied_by_other.
  apply Exists_exists in Hocc as (f & Hf & Hpos).
  apply Exists_exists. exists f. split; [done|]. split; [|done].
  intros ->. rewrite Hpos in Hreach, Hin.
  pose proof (reach_lane_closer k q q Hreach Hin Hhome). lia.
Qed.
End lane_walk.

(** C4: on a board of odd size N >= 5, for a figure on a PATH or HOME
    cell of the grid and a step count of at least one (the program passes
    1 and the values of the die), [Figure.next_position] raises nothing
    and its result falls under exactly the cases of the claim.  A turn of
    the loop whose advance [Board.next_position] yields None yields None,
    and for a figure whose start position has a home lane, as the entry
    coordinates have, a turn yields None only then.  Either some turn
    yields None or the given number of turns reaches a cell.  If a turn
    yields None the result is None.  If a cell is reached, the result is
    None when that cell is HOME and another figure of the board stands on
    it, and the cell reached otherwise.  So a coordinate that is returned
    is the one reached and never a HOME cell occupied by another
    figure. *)
Theorem C4_next_position_result (w : World) (self : nat) (moves : Z) :
  Board_built (w_board w) → Z.Odd (b_n (w_board w)) → 5 ≤ b_n (w_board w) →
  let position := f_position (w_figures w !!! self) in
  let start := f_start_position (w_figures w !!! self) in
  let home q := Board_box_at (w_board w) q.1 q.2 = HOME in
  let steps := Z.to_nat moves in
  on_track (w_board w) position → 1 ≤ moves →
  (∀ p, (Board_next_position (w_board w) p.1 p.2 = Ok None →
         eval (Figure_next_position_body self p) w = Ok None)
        ∧ (is_Some (Board_home_position (w_board w) start.1 start.2) →
           eval (Figure_next_position_body self p) w = Ok None →
           Board_next_position (w_board w) p.1 p.2 = Ok None))
  ∧ (∃ r, eval (Figure_next_position self moves) w = Ok r)
  ∧ ((∃ i p, (i < steps)%nat ∧ reach w self i position p
             ∧ eval (Figure_next_position_body self p) w = Ok None)
     ∨ (∃ q, reach w self steps position q))
  ∧ (∀ i p, (i < steps)%nat → reach w self i position p →
            eval (Figure_next_position_body self p) w = Ok None →
            eval (Figure_next_position self moves) w = Ok None)
  ∧ (∀ q, reach w self steps position q →
          eval (Figure_next_position self moves) w
          = if decide (home q ∧ occupied_by_other w self q)
            then Ok None else Ok (Some q))
  ∧ (∀ q, eval (Figure_next_position self moves) w = Ok (Some q) →
          reach w self steps position q
          ∧ ¬ (home q ∧ occupied_by_other w self q)).
Proof.
  intros Hb Hodd H5 position start home steps Hon Hmoves.
  destruct (odd_size _ Hodd H5) as [Hn Hm].
  assert (0 < steps)%nat as Hsteps by (unfold steps; lia).
  assert (∀ q, reach w self steps position q →
            eval (Figure_next_position self moves) w
            = if decide (home q ∧ occupied_by_other w self q)
              then Ok None else Ok (Some q)) as Hdest.
  { intros q Hreach. rewrite eval_Figure_next_position.
    pose proof Hreach as Hloop. apply loop_reach in Hloop.
    fold position steps. rewrite Hloop.
    destruct (decide (home q ∧ occupied_by_other w self q)) as [[Hh Ho]|Hfree].
    - rewrite decide_True; [done|]. split; [|done].
      by apply occupied_by_other_occupied in Ho.
    - rewrite decide_False; [done|]. intros [Hocc Hh]. apply Hfree.
      split; [done|].
      by apply (reached_home_other w self _ Hb Hn Hm steps q). }
  split; [intros p; apply body_None|].
  split.
  { destruct (next_position_never_raises w self _ Hb Hn Hm moves Hon)
      as (r & Hr & _).
    by exists r. }
  split.
  { destruct (loop_safe w self _ Hb Hn Hm steps position Hon)
      as ([q|] & Hloop & _).
    - right. exists q. by apply loop_reach.
    - left. by apply loop_None. }
  split.
  { intros i p Hi Hreach Hstuck. rewrite eval_Figure_next_position.
    fold position steps.
    by rewrite (loop_stuck self w i _ p Hreach Hstuck). }
  split; [done|].
  intros q Hq.
  assert (reach w self steps position q) as Hreach.
  { rewrite eval_Figure_next_position in Hq. fold position steps in Hq.
    destruct (eval (Figure_next_position_loop _ _ _) w)
      as [[r|]|e] eqn:Hloop; [|done..].
    case_decide; [done|]. injection Hq as ->. by apply loop_reach. }
  split; [done|]. rewrite (Hdest q Hreach) in Hq. by case_decide.
Qed.

(** Player A's figure on the first cell of the top lane of the board of
    size 7, asked for one step. *)
Lemma C4_next_position_result_witness :
  let w := exec (Board_move_figure 0 3 1) (game_of 7) in
  let self := 0%nat in
  let moves := 1 in
  let position := f_position (w_figures w !!! self) in
  let start := f_start_position (w_figures w !!! self) in
  let home q := Board_box_at (w_board w) q.1 q.2 = HOME in
  let steps := Z.to_nat moves in
  (∀ p, (Board_next_position (w_board w) p.1 p.2 = Ok None →
         eval (Figure_next_position_body self p) w = Ok None)
        ∧ (is_Some (Board_home_position (w_board w) start.1 start.2) →
           eval (Figure_next_position_body self p) w = Ok None →
           Board_next_position (w_board w) p.1 p.2 = Ok None))
  ∧ (∃ r, eval (Figure_next_position self moves) w = Ok r)
  ∧ ((∃ i p, (i < steps)%nat ∧ reach w self i position p
             ∧ eval (Figure_next_position_body self p) w = Ok None)
     ∨ (∃ q, reach w self steps position q))
  ∧ (∀ i p, (i < steps)%nat → reach w self i position p →
            eval (Figure_next_position_body self p) w = Ok None →
            eval (Figure_next_position self moves) w = Ok None)
  ∧ (∀ q, reach w self steps position q →
          eval (Figure_next_position self moves) w
          = if decide (home q ∧ occupied_by_other w self q)
            then Ok None else Ok (Some q))
  ∧ (∀ q, eval (Figure_next_position self moves) w = Ok (Some q) →
          reach w self steps position q
          ∧ ¬ (home q ∧ occupied_by_other w self q)).
Proof.
  apply (C4_next_position_result
           (exec (Board_move_figure 0 3 1) (game_of 7)) 0 1).
  - split; reflexivity.
  - exists 3. reflexivity.
  - vm_compute. discriminate.
  - split; [vm_compute; repeat split; discriminate|right; reflexivity].
  - lia.
Defined.

(** ** Turns of the game *)

Lemma eval_Player_active_figures_loop w figures :
  (∀ f, f ∈ figures → ∃ r, eval (Figure_next_position f 1) w = Ok r) →
  eval (Player_active_figures_loop figures) w
  = Ok (filter (figure_active w) figures).
Proof.
  induction figures as [|f figures IH]; intros Hok; [done|].
  cbn [Player_active_figures_loop].
  rewrite eval_bind by apply reads_Figure_is_home.
  rewrite eval_Figure_is_home. cbv beta iota.
  destruct (Hok f) as [r Hr]; [by apply elem_of_cons; left|].
  assert (eval (Player_active_figures_loop figures) w
          = Ok (filter (figure_active w) figures)) as Hrest.
  { apply IH. intros g Hg. apply Hok. by apply elem_of_cons; right. }
  rewrite filter_cons.
  destruct (decide (figure_active w f)) as [Hact|Hact];
    unfold figure_active in Hact;
    (destruct (bool_decide (Board_box_at _ _ _ = HOME)) eqn:Hhome;
     [apply bool_decide_eq_true in Hhome|apply bool_decide_eq_false in Hhome];
     cbn [negb]).
  - rewrite eval_bind.
    2:{ apply reads_bind; [apply reads_Figure_next_position|auto with reads]. }
    rewrite eval_bind by apply reads_Figure_next_position.
    rewrite Hr in *. cbv beta iota.
    change (eval (ret (bool_decide (r ≠ None))) w)
      with (Ok (bool_decide (r ≠ None)) : result bool).
    cbv beta iota.
    rewrite eval_bind by apply reads_Player_active_figures_loop.
    rewrite Hrest. cbv beta iota.
    rewrite bool_decide_eq_true_2; [done|].
    intros ->. destruct Hact; done.
  - rewrite eval_bind by auto with reads.
    change (eval (ret true) w) with (Ok true : result bool). cbv beta iota.
    rewrite eval_bind by apply reads_Player_active_figures_loop.
    by rewrite Hrest.
  - rewrite eval_bind.
    2:{ apply reads_bind; [apply reads_Figure_next_position|auto with reads]. }
    rewrite eval_bind by apply reads_Figure_next_position.
    rewrite Hr in *. cbv beta iota.
    change (eval (ret (bool_decide (r ≠ None))) w)
      with (Ok (bool_decide (r ≠ None)) : result bool).
    cbv beta iota.
    rewrite eval_bind by apply reads_Player_active_figures_loop.
    rewrite Hrest. cbv beta iota.
    rewrite bool_decide_eq_false_2; [done|].
    intros Hr'. apply Hact. right. by intros [= ->].
  - exfalso. apply Hact. by left.
Qed.

Lemma filter_head_elem {A} (P : A → Prop) `{!∀ x, Decision (P x)} l x :
  head (filter P l) = Some x → x ∈ l ∧ P x.
Proof.
  intros Hx. apply head_Some_elem_of in Hx.
  apply list_elem_of_filter in Hx. tauto.
Qed.

Lemma Game_inv_geometry w :
  Game_inv w →
  Board_built (w_board w)
  ∧ b_n (w_board w) = 2 * (b_n (w_board w) / 2) + 1
  ∧ 2 ≤ b_n (w_board w) / 2.
Proof.
  intros (_ & Hb & Hodd & H5 & _). split; [done|]. by apply odd_size.
Qed.

Lemma Game_inv_player w player :
  Game_inv w → player ∈ b_players (w_board w) →
  (player < length (w_players w))%nat
  ∧ ∀ f, f ∈ p_figures (w_players w !!! player) →
         f ∈ board_figures w
         ∧ on_track (w_board w) (f_position (w_figures w !!! f)).
Proof.
  intros ((_ & _ & Hall) & _ & _ & _ & _ & _ & _ & Hpos) Hpl. split.
  - rewrite Forall_forall in Hall. by apply Hall.
  - intros f Hf.
    assert (f ∈ board_figures w) as Hin
      by (apply elem_of_board_figures; by exists player).
    split; [done|]. rewrite Forall_forall in Hpos. by apply Hpos.
Qed.

(** The three ways a turn can go. *)
Lemma turn_cases w player dice :
  Game_inv w → player ∈ b_players (w_board w) →
  ∃ w1 r,
    simulacia_turn player dice w = (Ok r, w1)
    ∧ eval (Player_has_finished player) w1 = Ok r
    ∧ (w1 = w
       ∨ (filter (figure_active w) (p_figures (w_players w !!! player)) = []
          ∧ dice = 6
          ∧ Z.of_nat (length (p_figures (w_players w !!! player)))
            < Board_max_figures (w_board w)
          ∧ w1 = exec (Player_add_figure player) w)
       ∨ (∃ figure q,
            head (filter (figure_active w) (p_figures (w_players w !!! player)))
            = Some figure
            ∧ eval (Figure_next_position figure dice) w = Ok (Some q)
            ∧ w1 = exec (Board_move_figure figure q.1 q.2) w)).
Proof.
  intros Hinv Hpl.
  destruct (Game_inv_geometry w Hinv) as (Hb & Hn & Hm).
  destruct (Game_inv_player w player Hinv Hpl) as [Halloc Hfigs].
  assert (∀ f d, f ∈ p_figures (w_players w !!! player) →
                 ∃ r, eval (Figure_next_position f d) w = Ok r) as Hsafe.
  { intros f d Hf. destruct (Hfigs f Hf) as [_ Hon].
    destruct (next_position_never_raises w f _ Hb Hn Hm d Hon) as (r & ? & _).
    by exists r. }
  assert (eval (Player_active_figures player) w
          = Ok (filter (figure_active w) (p_figures (w_players w !!! player))))
    as Hactive.
  { unfold Player_active_figures. rewrite eval_bind by auto with reads.
    change (eval (get_player player) w) with (Ok (w_players w !!! player)).
    apply eval_Player_active_figures_loop. intros f Hf. by apply Hsafe. }
  assert (∀ w1, Player_has_finished player w1
                = (eval (Player_has_finished player) w1, w1)) as Hfin.
  { intros w1. apply reads_run.
    unfold Player_has_finished.
    apply reads_bind; [auto with reads|]. intros p.
    apply reads_bind; [auto with reads|]. intros board.
    case_bool_decide; [|auto with reads].
    unfold Player_figures_finished.
    apply reads_bind; [auto with reads|]. intros p'.
    induction (p_figures p') as [|f l IH]; simpl; [auto with reads|].
    apply reads_bind; [apply reads_Figure_is_home|].
    intros home. destruct (negb home); [auto with reads|done]. }
  assert (∀ w1, ∃ r, eval (Player_has_finished player) w1 = Ok r) as Hfinok.
  { intros w1. rewrite eval_Player_has_finished. by eexists. }
  unfold simulacia_turn. unfold bind at 1.
  rewrite (reads_run _ w (reads_Player_active_figures player)), Hactive.
  destruct (filter (figure_active w) _) as [|figure rest] eqn:Hfilter.
  - unfold bind at 1. unfold bind at 1.
    unfold get_player at 1, gets at 1. cbv beta iota.
    unfold bind at 1. unfold get_board at 1, gets at 1. cbv beta iota.
    destruct (bool_decide (dice = 6)
              && bool_decide (Z.of_nat (length (p_figures (w_players w !!! player)))
                              < Board_max_figures (w_board w))) eqn:Hadd.
    + apply andb_true_iff in Hadd as [Hd Hlen].
      apply bool_decide_eq_true in Hd, Hlen.
      rewrite run_Player_add_figure.
      set (w1 := mkWorld _ _ _).
      destruct (Hfinok w1) as [r Hr].
      exists w1, r. rewrite Hfin, Hr. split; [done|]. split; [done|].
      right. left. repeat (split; [done|]).
      unfold exec. by rewrite run_Player_add_figure.
    + unfold ret at 1. destruct (Hfinok w) as [r Hr].
      exists w, r. rewrite Hfin, Hr. split; [done|]. split; [done|]. by left.
  - assert (figure ∈ p_figures (w_players w !!! player)) as Hfig.
    { apply (filter_head_elem (figure_active w)). by rewrite Hfilter. }
    destruct (Hsafe figure dice Hfig) as [next Hnext].
    unfold bind at 1. unfold bind at 1.
    rewrite (reads_run _ w (reads_Figure_next_position figure dice)), Hnext.
    destruct next as [q|].
    + unfold bind at 1.
      destruct Hinv as (Hwf & _). pose proof Hwf as (Hnd & _).
      pose proof (run_Board_move_figure w figure q.1 q.2 Hnd) as Hmove.
      cbv zeta in Hmove.
      assert (∃ r1 w1, Board_move_figure figure q.1 q.2 w = (Ok r1, w1))
        as (r1 & w1 & Hrun).
      { destruct (head (figures_at w (q.1, q.2))).
        - destruct Hmove as (? & ? & _ & _ & _ & _ & ->). by eexists _, _.
        - rewrite Hmove. by eexists _, _. }
      rewrite Hrun. unfold ret at 1. destruct (Hfinok w1) as [r Hr].
      exists w1, r. rewrite Hfin, Hr. split; [done|]. split; [done|].
      right. right. exists figure, q. split; [done|]. split; [done|].
      unfold exec. by rewrite Hrun.
    + unfold ret at 1. destruct (Hfinok w) as [r Hr].
      exists w, r. rewrite Hfin, Hr. split; [done|]. split; [done|]. by left.
Qed.

Lemma entry_on_track b m home :
  b_n b = 2 * m + 1 → 2 ≤ m →
  home ∈ [(m + 1, 0); (m - 1, b_n b - 1)] → on_track b home.
Proof.
  intros Hn Hm Hhome. unfold on_track, in_board.
  rewrite (box_at_PATH b m Hn Hm).
  apply elem_of_cons in Hhome as [->|Hhome];
    [|apply list_elem_of_singleton in Hhome as ->]; simpl; lia.
Qed.

Lemma Game_inv_add_figure w player :
  Game_inv w → player ∈ b_players (w_board w) →
  Z.of_nat (length (p_figures (w_players w !!! player)))
  < Board_max_figures (w_board w) →
  Game_inv (exec (Player_add_figure player) w).
Proof.
  intros Hinv Hpl Hroom.
  destruct (Game_inv_geometry w Hinv) as (_ & Hn & Hm).
  destruct (Game_inv_player w player Hinv Hpl) as [Halloc _].
  destruct Hinv as (Hwf & Hb & Hodd & H5 & Hnd & Hhomes & Hbound & Hpos).
  assert (on_track (w_board w) (p_home_position (w_players w !!! player)))
    as Hhome.
  { apply list_elem_of_lookup_1 in Hpl as [i Hi].
    destruct (Hhomes i player Hi) as [Hs _].
    apply (entry_on_track _ _ _ Hn Hm).
    destruct Hb as [_ Hstarts]. rewrite Hstarts in Hs.
    by apply list_elem_of_lookup_2 in Hs. }
  pose proof (wf_Player_add_figure w player Hwf Halloc) as Hwf'.
  pose proof (homes_inv_add_figure w player Hwf Halloc Hhomes) as Hhomes'.
  unfold exec in *. rewrite run_Player_add_figure in *.
  repeat (split; [done|]). simpl. split.
  - apply Forall_forall. intros pl Hin.
    rewrite Forall_forall in Hbound. specialize (Hbound pl Hin).
    destruct (decide (pl = player)) as [->|Hne].
    + rewrite list_lookup_total_insert_eq by done. simpl.
      rewrite length_app. simpl. lia.
    + by rewrite list_lookup_total_insert_ne.
  - apply Forall_forall. intros h Hh.
    apply elem_of_board_figures in Hh as (pl & Hin & Hh). simpl in *.
    assert (h ∈ board_figures w ∨ h = length (w_figures w)) as [Hold| ->].
    { destruct (decide (pl = player)) as [->|Hne].
      - rewrite list_lookup_total_insert_eq in Hh by done. simpl in Hh.
        apply elem_of_app in Hh as [Hh|Hh].
        + left. apply elem_of_board_figures. by exists player.
        + right. by apply list_elem_of_singleton in Hh.
      - rewrite list_lookup_total_insert_ne in Hh by done.
        left. apply elem_of_board_figures. by exists pl. }
    + rewrite lookup_total_app_l by (by apply board_figure_allocated).
      rewrite Forall_forall in Hpos. by apply Hpos.
    + by rewrite (list_lookup_total_middle _ [] _ (length (w_figures w))).
Qed.

Lemma move_figure_lengths w figure x y pl :
  World_wf w →
  (length (p_figures (w_players (exec (Board_move_figure figure x y) w) !!! pl))
   ≤ length (p_figures (w_players w !!! pl)))%nat.
Proof.
  intros Hwf. pose proof Hwf as (Hnd & _).
  pose proof (run_Board_move_figure w figure x y Hnd) as Hmove.
  cbv zeta in Hmove. unfold exec.
  destruct (head (figures_at w (x, y))) as [g|].
  - destruct Hmove as (owner & l' & _ & Halloc & Hg & Hrem & ->). simpl.
    destruct (list_remove_elem g _ Hg (NoDup_player_figures _ owner Hnd))
      as (l'' & Hrem' & _ & _ & _ & Hlen).
    rewrite Hrem in Hrem'. injection Hrem' as <-.
    destruct (decide (pl = owner)) as [->|Hne].
    + rewrite list_lookup_total_insert_eq by done. simpl. lia.
    + by rewrite list_lookup_total_insert_ne.
  - by rewrite Hmove.
Qed.

Lemma Game_inv_move w figure q :
  Game_inv w → figure ∈ board_figures w → on_track (w_board w) q →
  Game_inv (exec (Board_move_figure figure q.1 q.2) w).
Proof.
  intros (Hwf & Hb & Hodd & H5 & Hnd & Hhomes & Hbound & Hpos) Hfig Hq.
  pose proof (board_figure_allocated w figure Hwf Hfig) as Halloc.
  destruct (move_figure_effect w figure q.1 q.2 Hwf Halloc)
    as (Hposn & Hboard & Hmem).
  split; [by apply wf_Board_move_figure|].
  rewrite Hboard. repeat (split; [done|]).
  split; [|split].
  - intros i pl. rewrite Hboard. intros Hi.
    pose proof (homes_inv_move_figure w figure q.1 q.2 Hwf Hhomes i pl) as H.
    rewrite Hboard in H. by apply H.
  - apply Forall_forall. intros pl Hin.
    rewrite Forall_forall in Hbound. specialize (Hbound pl Hin).
    pose proof (move_figure_lengths w figure q.1 q.2 pl Hwf). lia.
  - apply Forall_forall. intros h Hh. apply Hmem in Hh as [Hh _].
    rewrite Hposn. case_decide.
    + by destruct q.
    + rewrite Forall_forall in Hpos. by apply Hpos.
Qed.

Lemma turn_keeps_invariant w player dice :
  Game_inv w → player ∈ b_players (w_board w) →
  ∃ r, eval (simulacia_turn player dice) w = Ok r
     ∧ eval (Player_has_finished player) (exec (simulacia_turn player dice) w)
       = Ok r
     ∧ Game_inv (exec (simulacia_turn player dice) w)
     ∧ w_board (exec (simulacia_turn player dice) w) = w_board w.
Proof.
  intros Hinv Hpl.
  destruct (turn_cases w player dice Hinv Hpl) as (w1 & r & Hrun & Hr & Hcase).
  exists r. unfold eval at 1, exec. rewrite Hrun. simpl.
  split; [done|]. split; [done|].
  destruct Hcase as [->|[(_ & _ & Hroom & ->)|(figure & q & Hhead & Hnext & ->)]].
  - done.
  - split; [by apply Game_inv_add_figure|].
    unfold exec. by rewrite run_Player_add_figure.
  - destruct (Game_inv_geometry w Hinv) as (Hb & Hn & Hm).
    destruct (Game_inv_player w player Hinv Hpl) as [_ Hfigs].
    apply filter_head_elem in Hhead as [Hfig _].
    destruct (Hfigs figure Hfig) as [Hin Hon].
    destruct (next_position_never_raises w figure _ Hb Hn Hm dice Hon)
      as (r' & Hr' & Hq).
    rewrite Hnext in Hr'. injection Hr' as <-.
    destruct (Hq q eq_refl) as (Hqon & _).
    split; [by apply Game_inv_move|].
    destruct Hinv as (Hwf & _).
    pose proof (board_figure_allocated w figure Hwf Hin) as Halloc.
    destruct (move_figure_effect w figure q.1 q.2 Hwf Halloc) as (_ & -> & _).
    done.
Qed.

Lemma simulacia_start_inv n :
  Z.Odd n → 5 ≤ n →
  ∃ w, simulacia_start n = Ok w
     ∧ Game_inv w
     ∧ b_n (w_board w) = n
     ∧ b_players (w_board w) = [0%nat; 1%nat].
Proof.
  intros Hodd H5. eexists. split; [by apply simulacia_start_world|].
  split; [|done].
  assert (n = 2 * (n / 2) + 1 ∧ 2 ≤ n / 2) as [Hn Hm]
    by (destruct Hodd as [k Hk]; zlia).
  unfold Game_inv. simpl. split; [|split; [|split; [|split; [|split; [|split; [|split]]]]]].
  - unfold World_wf, all_figures. simpl. split; [|split].
    + apply (bool_decide_unpack _). done.
    + repeat constructor.
    + repeat constructor.
  - split; [by apply build_board_size|done].
  - done.
  - done.
  - apply (bool_decide_unpack _). done.
  - intros [|[|i]] pl Hpl; simplify_eq/=; (split; [done|]); by repeat constructor.
  - unfold Board_max_figures. rewrite !Forall_cons, Forall_nil. simpl. zlia.
  - unfold board_figures. simpl. rewrite !Forall_cons, Forall_nil. simpl.
    split; [|split; [|done]];
      apply (entry_on_track (mkBoard n _ _ _) (n / 2)); simpl;
        try done; rewrite !elem_of_cons; auto.
Qed.

Lemma reads_run_pair {A} (m : M A) w r w1 :
  m w = (r, w1) → eval m w = r ∧ exec m w = w1.
Proof. intros H. unfold eval, exec. by rewrite H. Qed.

Lemma loop_keeps_invariant (dice : list Z) : ∀ w turn,
  Game_inv w →
  ∃ r, eval (simulacia_loop (b_players (w_board w)) turn dice) w = Ok r
     ∧ Game_inv (exec (simulacia_loop (b_players (w_board w)) turn dice) w)
     ∧ w_board (exec (simulacia_loop (b_players (w_board w)) turn dice) w)
       = w_board w
     ∧ ∀ pl, r = Some pl →
         pl ∈ b_players (w_board w)
         ∧ eval (Player_has_finished pl)
             (exec (simulacia_loop (b_players (w_board w)) turn dice) w)
           = Ok true.
Proof.
  induction dice as [|d dice IH]; intros w turn Hinv.
  - exists None. split; [done|]. split; [exact Hinv|]. split; [done|].
    by intros.
  - cbn [simulacia_loop].
    destruct (b_players (w_board w) !! _) as [player|] eqn:Hplayer;
      [|exists None; split; [done|]; split; [exact Hinv|]; split; [done|];
        by intros].
    assert (player ∈ b_players (w_board w)) as Hpl
      by (by eapply list_elem_of_lookup_2).
    destruct (turn_keeps_invariant w player d Hinv Hpl)
      as (r & Hr & Hfin & Hinv' & Hsame).
    set (w1 := exec (simulacia_turn player d) w) in *.
    assert (simulacia_turn player d w = (Ok r, w1)) as Hrun.
    { unfold eval in Hr. subst w1. unfold exec.
      destruct (simulacia_turn player d w). simpl in *. by subst. }
    unfold eval, exec, bind. rewrite Hrun.
    destruct r.
    + exists (Some player). simpl. split; [done|]. split; [done|].
      split; [done|]. by intros pl [= <-].
    + destruct (IH w1 (S turn) Hinv') as (r' & Hr' & Hinv'' & Hboard & Hwin).
      rewrite Hsame in *. exists r'. split; [done|]. split; [done|].
      split; [done|]. done.
Qed.

Lemma home_figure_survives_turn w player dice g :
  Game_inv w → player ∈ b_players (w_board w) →
  g ∈ board_figures w →
  Board_box_at (w_board w) (f_position (w_figures w !!! g)).1
    (f_position (w_figures w !!! g)).2 = HOME →
  let w' := exec (simulacia_turn player dice) w in
  g ∈ board_figures w'
  ∧ Board_box_at (w_board w') (f_position (w_figures w' !!! g)).1
      (f_position (w_figures w' !!! g)).2 = HOME.
Proof.
  intros Hinv Hpl Hg Hhome w'. subst w'.
  destruct (turn_cases w player dice Hinv Hpl) as (w1 & r & Hrun & _ & Hcase).
  unfold exec. rewrite Hrun. simpl.
  destruct (Game_inv_geometry w Hinv) as (Hb & Hn & Hm).
  destruct (Game_inv_player w player Hinv Hpl) as [Halloc Hfigs].
  pose proof Hinv as (Hwf & _).
  destruct Hcase as [->|[(_ & _ & _ & ->)|(figure & q & Hhead & Hnext & ->)]].
  - done.
  - unfold exec. rewrite run_Player_add_figure. simpl.
    rewrite lookup_total_app_l by (by apply board_figure_allocated).
    split; [|done].
    apply elem_of_board_figures in Hg as (pl & Hin & Hg).
    apply elem_of_board_figures. exists pl. split; [done|]. simpl.
    destruct (decide (pl = player)) as [->|Hne].
    + rewrite list_lookup_total_insert_eq by done. simpl.
      apply elem_of_app. by left.
    + by rewrite list_lookup_total_insert_ne.
  - apply filter_head_elem in Hhead as [Hfig _].
    destruct (Hfigs figure Hfig) as [Hin Hon].
    destruct (next_position_never_raises w figure _ Hb Hn Hm dice Hon)
      as (r' & Hr' & Hq).
    rewrite Hnext in Hr'. injection Hr' as <-.
    destruct (Hq q eq_refl) as (_ & Hstay & Hfree).
    pose proof (board_figure_allocated w figure Hwf Hin) as Hfalloc.
    destruct (move_figure_effect w figure q.1 q.2 Hwf Hfalloc)
      as (Hpos & -> & Hmem).
    split.
    + apply Hmem. split; [done|]. intros Hcap.
      apply head_Some_elem_of, list_elem_of_filter in Hcap as [Hpg _].
      apply Hfree. replace q with (q.1, q.2) by by destruct q.
      split.
      * apply Exists_exists. by exists g.
      * by rewrite <- Hpg.
    + rewrite Hpos. case_decide as Heq; [|done]. subst g. simpl.
      by apply Hstay.
Qed.

Lemma game_of_inv n : Z.Odd n → 5 ≤ n → Game_inv (game_of n).
Proof.
  intros Hodd H5.
  destruct (simulacia_start_inv n Hodd H5) as (w & Hstart & Hinv & _).
  unfold game_of. by rewrite Hstart.
Qed.

(** X15: [Board.move_figure] checks the target before it moves: a
    figure moved to the cell where it is the first figure captures
    itself.  It is returned as the deleted figure and no player of the
    board holds it afterwards. *)
Theorem X15_move_onto_itself (w : World) (figure : nat) (x y : Z) :
  World_wf w → head (figures_at w (x, y)) = Some figure →
  let w' := exec (Board_move_figure figure x y) w in
  eval (Board_move_figure figure x y) w = Ok (Some figure)
  ∧ figure ∈ board_figures w
  ∧ (figure ∉ board_figures w')
  ∧ f_position (w_figures w' !!! figure) = (x, y).
Proof.
  intros Hwf Hhead w'.
  assert (figure ∈ board_figures w) as Hin.
  { apply head_Some_elem_of, list_elem_of_filter in Hhead. tauto. }
  pose proof (board_figure_allocated w figure Hwf Hin) as Halloc.
  destruct (move_figure_effect w figure x y Hwf Halloc) as (Hpos & _ & Hmem).
  fold w' in Hpos, Hmem.
  split; [|split; [done|split]].
  - pose proof Hwf as (Hnd & _).
    pose proof (run_Board_move_figure w figure x y Hnd) as Hmove.
    cbv zeta in Hmove. rewrite Hhead in Hmove.
    destruct Hmove as (? & ? & _ & _ & _ & _ & Hrun).
    unfold eval. by rewrite Hrun.
  - rewrite Hmem. tauto.
  - by rewrite Hpos, decide_True.
Qed.

(** Player A's figure moved to its own cell (4, 0). *)
Lemma X15_move_onto_itself_witness :
  let w := game_of 7 in
  let w' := exec (Board_move_figure 0 4 0) w in
  eval (Board_move_figure 0 4 0) w = Ok (Some 0%nat)
  ∧ 0%nat ∈ board_figures w
  ∧ (0%nat ∉ board_figures w')
  ∧ f_position (w_figures w' !!! 0%nat) = (4, 0).
Proof.
  apply (X15_move_onto_itself (game_of 7) 0 4 0).
  - apply (bool_decide_unpack _). vm_compute. exact I.
  - reflexivity.
Defined.

(** X16: in a game, [Player.active_figures] changes nothing, raises
    nothing, and returns, in the order of the player's list, the figures
    that are off the HOME cells or can move one cell. *)
Theorem X16_active_figures (w : World) (player : nat) :
  Game_inv w → player ∈ b_players (w_board w) →
  exec (Player_active_figures player) w = w
  ∧ eval (Player_active_figures player) w
    = Ok (filter (figure_active w) (p_figures (w_players w !!! player)))
  ∧ ∀ f, f ∈ p_figures (w_players w !!! player) →
         ∃ r, eval (Figure_next_position f 1) w = Ok r.
Proof.
  intros Hinv Hpl.
  destruct (Game_inv_geometry w Hinv) as (Hb & Hn & Hm).
  destruct (Game_inv_player w player Hinv Hpl) as [Halloc Hfigs].
  assert (∀ f, f ∈ p_figures (w_players w !!! player) →
               ∃ r, eval (Figure_next_position f 1) w = Ok r) as Hsafe.
  { intros f Hf. destruct (Hfigs f Hf) as [_ Hon].
    destruct (next_position_never_raises w f _ Hb Hn Hm 1 Hon) as (r & ? & _).
    by exists r. }
  split; [apply reads_Player_active_figures|]. split; [|done].
  unfold Player_active_figures. rewrite eval_bind by auto with reads.
  change (eval (get_player player) w) with (Ok (w_players w !!! player)).
  by apply eval_Player_active_figures_loop.
Qed.

(** Player A after the set-up of the board of size 7. *)
Lemma X16_active_figures_witness :
  let w := game_of 7 in
  exec (Player_active_figures 0) w = w
  ∧ eval (Player_active_figures 0) w
    = Ok (filter (figure_active w) (p_figures (w_players w !!! 0%nat)))
  ∧ ∀ f, f ∈ p_figures (w_players w !!! 0%nat) →
         ∃ r, eval (Figure_next_position f 1) w = Ok r.
Proof.
  apply (X16_active_figures (game_of 7) 0).
  - apply game_of_inv; [exists 3; reflexivity|lia].
  - apply (bool_decide_unpack _). vm_compute. exact I.
Defined.

(** X17: one turn of the loop of [simulacia], for any value of the
    die, raises nothing, keeps the invariant of the game (so every
    figure of the board stays on a PATH or HOME cell of the grid and no
    player exceeds [max_figures]) and leaves the board object as it
    is; its result is [Player.has_finished] of the player after the
    turn. *)
Theorem X17_turn_safe (w : World) (player : nat) (dice : Z) :
  Game_inv w → player ∈ b_players (w_board w) →
  let w' := exec (simulacia_turn player dice) w in
  ∃ r, eval (simulacia_turn player dice) w = Ok r
     ∧ eval (Player_has_finished player) w' = Ok r
     ∧ Game_inv w'
     ∧ w_board w' = w_board w.
Proof. intros Hinv Hpl. by apply turn_keeps_invariant. Qed.

(** Player A throws a six after the set-up of the board of size 7. *)
Lemma X17_turn_safe_witness :
  let w := game_of 7 in
  let w' := exec (simulacia_turn 0 6) w in
  ∃ r, eval (simulacia_turn 0 6) w = Ok r
     ∧ eval (Player_has_finished 0) w' = Ok r
     ∧ Game_inv w'
     ∧ w_board w' = w_board w.
Proof.
  apply (X17_turn_safe (game_of 7) 0 6).
  - apply game_of_inv; [exists 3; reflexivity|lia].
  - apply (bool_decide_unpack _). vm_compute. exact I.
Defined.

(** X18: for every odd N >= 5 and every sequence of die values,
    [simulacia(N)] raises no exception: the set-up succeeds and every
    turn runs through, on a board of size N, and the world it ends in
    satisfies the invariant of the game.  When the loop ends with a
    winner, [Player.has_finished] is true of that player, who holds
    [max_figures] figures. *)
Theorem X18_simulacia_safe (n : Z) (dice : list Z) :
  Z.Odd n → 5 ≤ n →
  ∃ r w', simulacia n dice = (Ok r, Some w')
     ∧ Game_inv w'
     ∧ b_n (w_board w') = n
     ∧ ∀ pl, r = Some pl →
         eval (Player_has_finished pl) w' = Ok true
         ∧ Z.of_nat (length (p_figures (w_players w' !!! pl)))
           = Board_max_figures (w_board w').
Proof.
  intros Hodd H5.
  destruct (simulacia_start_inv n Hodd H5) as (w & Hstart & Hinv & Hn & Hpls).
  destruct (loop_keeps_invariant dice w 0 Hinv)
    as (r & Hr & Hinv' & Hboard & Hwin).
  unfold simulacia. rewrite Hstart.
  destruct (simulacia_loop _ 0 dice w) as [r0 w'] eqn:Hrun.
  apply reads_run_pair in Hrun as [Hr0 Hw'].
  rewrite Hr0 in Hr. rewrite Hw' in *. subst r0.
  exists r, w'. split; [done|]. split; [done|].
  split; [by rewrite Hboard|].
  intros pl Hpl. destruct (Hwin pl Hpl) as [_ Hfin]. split; [done|].
  rewrite eval_Player_has_finished in Hfin. injection Hfin as Hfin.
  apply andb_true_iff in Hfin as [Hlen _].
  by apply bool_decide_eq_true in Hlen.
Qed.

(** Three turns on the board of size 7. *)
Lemma X18_simulacia_safe_witness :
  ∃ r w', simulacia 7 [6; 3; 1] = (Ok r, Some w')
     ∧ Game_inv w'
     ∧ b_n (w_board w') = 7
     ∧ ∀ pl, r = Some pl →
         eval (Player_has_finished pl) w' = Ok true
         ∧ Z.of_nat (length (p_figures (w_players w' !!! pl)))
           = Board_max_figures (w_board w').
Proof.
  apply (X18_simulacia_safe 7 [6; 3; 1]).
  - exists 3. reflexivity.
  - lia.
Defined.

(** X19: a figure of the board that stands on a HOME cell is still on
    the board and on a HOME cell after any turn of any player: it cannot
    be captured, and its own moves stay in the lane. *)
Theorem X19_home_figure_protected (w : World) (player : nat) (dice : Z) (g : nat) :
  Game_inv w → player ∈ b_players (w_board w) →
  g ∈ board_figures w →
  Board_box_at (w_board w) (f_position (w_figures w !!! g)).1
    (f_position (w_figures w !!! g)).2 = HOME →
  let w' := exec (simulacia_turn player dice) w in
  g ∈ board_figures w'
  ∧ Board_box_at (w_board w') (f_position (w_figures w' !!! g)).1
      (f_position (w_figures w' !!! g)).2 = HOME.
Proof. intros. by apply home_figure_survives_turn. Qed.

(** Player A's figure in the top lane while player B throws a six. *)
Lemma X19_home_figure_protected_witness :
  let w := exec (Board_move_figure 0 3 1) (game_of 7) in
  let w' := exec (simulacia_turn 1 6) w in
  0%nat ∈ board_figures w'
  ∧ Board_box_at (w_board w') (f_position (w_figures w' !!! 0%nat)).1
      (f_position (w_figures w' !!! 0%nat)).2 = HOME.
Proof.
  apply (X19_home_figure_protected
           (exec (Board_move_figure 0 3 1) (game_of 7)) 1 6 0).
  - apply (Game_inv_move (game_of 7) 0 (3, 1)).
    + apply game_of_inv; [exists 3; reflexivity|lia].
    + apply (bool_decide_unpack _). vm_compute. exact I.
    + split; [vm_compute; repeat split; discriminate|right; reflexivity].
  - apply (bool_decide_unpack _). vm_compute. exact I.
  - apply (bool_decide_unpack _). vm_compute. exact I.
  - reflexivity.
Defined.
